(** * Menu editor (Practica 3, script.js): model and verified properties

    The editor keeps a forest of menu entries in the global [menuData],
    searches it by id, allocates fresh ids, inserts, updates and deletes
    entries from a form, and shows the forest as pretty-printed JSON.

    Conventions of the model.
    - A JavaScript string is its sequence of UTF-16 code units ([jsstring]).
    - An id is a whole number held in a JavaScript number, written as the
      integer it is ([Z]).  Comparisons of such numbers are exact; the one
      sum of the program, [max + 1] in [nextId], rounds as doubles do from
      2^53 on ([add_one]).
    - A menu entry is the object [{id, nombre, enlace, icon, submenu}];
      [icon] and [submenu] may be absent ([None]).  An empty array is a
      truthy value in JavaScript, so [Some []] and [None] are kept apart.
    - The forest is a tree of objects without sharing, so mutating the object
      that a search returned is the replacement of the first entry that the
      same traversal reaches.
    - The two id fields of the form hold an integer or nothing; the dialog of
      [confirm] is the boolean that the user answers.
    - What a handler does besides changing [menuData] (messages, saving,
      rendering, resetting the form) is recorded in order in [effects]. *)

From Stdlib Require Import ZArith NArith List Permutation Bool Ascii String Lia.
From Stdlib Require Import DecimalFacts DecimalPos DecimalZ.
Import ListNotations.

Set Implicit Arguments.

Local Open Scope Z_scope.

(** ** Strings *)

(** A UTF-16 code unit, by its number. *)
#[warnings="-notation-for-abbreviation"]
Notation code_unit := N (only parsing).

(** A JavaScript string: its code units in order. *)
#[warnings="-notation-for-abbreviation"]
Notation jsstring := (list N) (only parsing).

(** An ASCII literal as a JavaScript string. *)
Definition lit (s : string) : jsstring :=
  List.map N_of_ascii (list_ascii_of_string s).

(** ** Data model *)

#[local] Unset Elimination Schemes.
Inductive MenuEntry : Type :=
  mkEntry {
    id : Z;
    nombre : jsstring;
    enlace : jsstring;
    icon : option jsstring;
    submenu : option (list MenuEntry)
  }.

#[local] Set Elimination Schemes.

Definition Forest := list MenuEntry.

(** Induction over entries and forests together. *)
Section MenuEntry_induction.
Variable P : MenuEntry -> Prop.
Variable Q : Forest -> Prop.
Hypothesis P_leaf : forall i n e ic, P (mkEntry i n e ic None).
Hypothesis P_node : forall i n e ic l, Q l -> P (mkEntry i n e ic (Some l)).
Hypothesis Q_nil : Q [].
Hypothesis Q_cons : forall it rest, P it -> Q rest -> Q (it :: rest).

Fixpoint entry_forest_ind (it : MenuEntry) : P it :=
  match it with
  | mkEntry i n e ic None => P_leaf i n e ic
  | mkEntry i n e ic (Some l) =>
      P_node i n e ic
        ((fix go (l : Forest) : Q l :=
            match l with
            | [] => Q_nil
            | x :: r => Q_cons (entry_forest_ind x) (go r)
            end) l)
  end.

Fixpoint forest_entry_ind (l : Forest) : Q l :=
  match l with
  | [] => Q_nil
  | x :: r => Q_cons (entry_forest_ind x) (forest_entry_ind r)
  end.
End MenuEntry_induction.

(** ** nextId *)

(** [check] with the captured variable [max] passed through. *)
Fixpoint check (max : Z) (item : MenuEntry) : Z :=
  let max1 :=
    if negb (id item =? 0) && (id item >? max) then id item else max in
  match submenu item with
  | Some l =>
      if (0 <? Z.of_nat (List.length l))
      then fold_left check l max1
      else max1
  | None => max1
  end.

(** The sum [max + 1] of JavaScript numbers, for a whole number [max] that a
    double holds.  Below 2^53 the sum is exact.  From 2^53 to 2^54 doubles are
    the even numbers: [max + 1] lies halfway between [max] and [max + 2] and
    rounds to the one whose significand is even, the multiple of 4.  From 2^54
    on doubles are at least 4 apart and the sum rounds back to [max]. *)
Definition add_one (max : Z) : Z :=
  if max <? 2 ^ 53 then max + 1
  else if max <? 2 ^ 54 then 4 * ((max + 2) / 4)
  else max.

Definition nextId (menuData : Forest) : Z :=
  add_one (fold_left check menuData 0).

(** ** findById *)

(** One turn of the loop of [search]: the entry itself, then its submenu. *)
Fixpoint search_entry (target : Z) (it : MenuEntry) : option MenuEntry :=
  if id it =? target then Some it
  else
    match submenu it with
    | Some l =>
        (fix search_in (arr : Forest) : option MenuEntry :=
           match arr with
           | [] => None
           | x :: rest =>
               match search_entry target x with
               | Some r => Some r
               | None => search_in rest
               end
           end) l
    | None => None
    end.

(** The loop of [search] over an array. *)
Fixpoint search (target : Z) (arr : Forest) : option MenuEntry :=
  match arr with
  | [] => None
  | it :: rest =>
      match search_entry target it with
      | Some r => Some r
      | None => search target rest
      end
  end.

Definition findById (target : Z) (menuData : Forest) : option MenuEntry :=
  search target menuData.

(** ** deleteItem *)

(** What the callback of [filter] does to an entry that is kept: its submenu,
    when present, is replaced by the filtered one. *)
Fixpoint filterOut_kept (target : Z) (it : MenuEntry) : MenuEntry :=
  mkEntry (id it) (nombre it) (enlace it) (icon it)
    match submenu it with
    | Some l =>
        Some
          ((fix filter_in (arr : Forest) : Forest :=
              match arr with
              | [] => []
              | x :: rest =>
                  if id x =? target then filter_in rest
                  else filterOut_kept target x :: filter_in rest
              end) l)
    | None => None
    end.

Fixpoint filterOut (target : Z) (arr : Forest) : Forest :=
  match arr with
  | [] => []
  | it :: rest =>
      if id it =? target then filterOut target rest
      else filterOut_kept target it :: filterOut target rest
  end.

(** ** Objects mutated in place *)

(** [mutate_entry target f it] applies [f] to the entry that [search] reaches
    first for [target] inside [it], if there is one. *)
Fixpoint mutate_entry (target : Z) (f : MenuEntry -> MenuEntry)
    (it : MenuEntry) : option MenuEntry :=
  if id it =? target then Some (f it)
  else
    match submenu it with
    | Some l =>
        match
          (fix mutate_in (arr : Forest) : option Forest :=
             match arr with
             | [] => None
             | x :: rest =>
                 match mutate_entry target f x with
                 | Some x' => Some (x' :: rest)
                 | None =>
                     match mutate_in rest with
                     | Some rest' => Some (x :: rest')
                     | None => None
                     end
                 end
             end) l
        with
        | Some l' =>
            Some (mkEntry (id it) (nombre it) (enlace it) (icon it) (Some l'))
        | None => None
        end
    | None => None
    end.

Fixpoint mutate (target : Z) (f : MenuEntry -> MenuEntry)
    (arr : Forest) : option Forest :=
  match arr with
  | [] => None
  | it :: rest =>
      match mutate_entry target f it with
      | Some it' => Some (it' :: rest)
      | None =>
          match mutate target f rest with
          | Some rest' => Some (it :: rest')
          | None => None
          end
      end
  end.

(** The forest after [f] has been applied to the object returned by
    [findById target]. *)
Definition assign (target : Z) (f : MenuEntry -> MenuEntry)
    (menuData : Forest) : Forest :=
  match mutate target f menuData with
  | Some menuData' => menuData'
  | None => menuData
  end.

(** ** String helpers of the form handler *)

Local Open Scope N_scope.

(** LineTerminator code units: LF, CR, LS, PS. *)
Definition is_line_terminator (c : code_unit) : bool :=
  (c =? 10) || (c =? 13) || (c =? 8232) || (c =? 8233).

(** WhiteSpace code units: TAB, VT, FF, SP, NBSP, ZWNBSP and the space
    separators. *)
Definition is_white_space (c : code_unit) : bool :=
  (c =? 9) || (c =? 11) || (c =? 12) || (c =? 32) || (c =? 160)
  || (c =? 5760) || ((8192 <=? c) && (c <=? 8202))
  || (c =? 8239) || (c =? 8287) || (c =? 12288) || (c =? 65279).

Definition trimmable (c : code_unit) : bool :=
  is_white_space c || is_line_terminator c.

Fixpoint trimStart (s : jsstring) : jsstring :=
  match s with
  | c :: rest => if trimmable c then trimStart rest else s
  | [] => []
  end.

(** [String.prototype.trim]. *)
Definition trim (s : jsstring) : jsstring :=
  rev (trimStart (rev (trimStart s))).

(** A string as a condition: only the empty string is falsy. *)
Definition truthy_string (s : jsstring) : bool :=
  match s with
  | [] => false
  | _ :: _ => true
  end.

(** ** validateUrl *)

(** The regular expressions that the pattern of [validateUrl] is made of. *)
Inductive regex : Type :=
| Chr (c : code_unit)
| Dot
| Seq (r1 r2 : regex)
| Alt (r1 r2 : regex)
| Opt (r : regex)
| Plus (r : regex).

(** Canonicalisation under the flag [i], as far as a comparison with an ASCII
    pattern character can tell: a code unit outside ASCII never
    canonicalises to an ASCII one. *)
Definition canonicalize (c : code_unit) : code_unit :=
  if (97 <=? c) && (c <=? 122) then c - 32 else c.

(** Backtracking matcher: [matches r s k] tries every way [r] can match a
    prefix of [s], in the order of the engine, until the continuation [k]
    accepts the rest. *)
Fixpoint matches (r : regex) (s : jsstring) (k : jsstring -> bool) : bool :=
  match r with
  | Chr c =>
      match s with
      | d :: s' => (canonicalize d =? canonicalize c) && k s'
      | [] => false
      end
  | Dot =>
      match s with
      | d :: s' => negb (is_line_terminator d) && k s'
      | [] => false
      end
  | Seq r1 r2 => matches r1 s (fun s' => matches r2 s' k)
  | Alt r1 r2 => matches r1 s k || matches r2 s k
  | Opt r1 => matches r1 s k || k s
  | Plus r1 =>
      (fix loop (fuel : nat) (s : jsstring) : bool :=
         match fuel with
         | O => false
         | S fuel' => matches r1 s (fun s' => loop fuel' s' || k s')
         end) (List.length s) s
  end.

Definition chr (a : ascii) : regex := Chr (N_of_ascii a).

(** [(\/|https?:\/\/)] *)
Definition scheme : regex :=
  Alt (chr "/")
      (Seq (chr "h") (Seq (chr "t") (Seq (chr "t") (Seq (chr "p")
        (Seq (Opt (chr "s"))
          (Seq (chr ":") (Seq (chr "/") (chr "/")))))))).

(** [/^(\/|https?:\/\/).+/i] *)
Definition pattern : regex := Seq scheme (Plus Dot).

(** [pattern.test]: the pattern is anchored at the start of the string. *)
Definition test (r : regex) (s : jsstring) : bool :=
  matches r s (fun _ => true).

Definition validateUrl (url : jsstring) : bool :=
  if negb (truthy_string url) then false
  else test pattern url.

Local Close Scope N_scope.

(** ** The page: forest, messages, persistence *)

Inductive message : Type :=
| MsgNombreObligatorio      (* "El campo 'Nombre' es obligatorio." *)
| MsgEnlaceInvalido         (* "El enlace debe comenzar con '/' o ..." *)
| MsgEditarNoEncontrado     (* "Elemento a editar no encontrado." *)
| MsgActualizado            (* "Elemento actualizado." *)
| MsgParentNoEncontrado     (* "Parent ID no encontrado. El elemento ..." *)
| MsgAnadida                (* "Nueva opcion anadida." *)
| MsgEliminado.             (* "Elemento eliminado." *)

(** What a handler does besides changing [menuData], in order. *)
Inductive effect : Type :=
| ShowMessage (msg : message) (isError : bool)
| SaveToLocalStorage (saved : Forest)
| RenderMenu (shown : Forest)
| ResetForm.

Record Page : Type := mkPage {
  menuData : Forest;
  effects : list effect
}.

Definition showMessage (msg : message) (isError : bool) (p : Page) : Page :=
  mkPage (menuData p) (effects p ++ [ShowMessage msg isError]).

Definition saveToLocalStorage (p : Page) : Page :=
  mkPage (menuData p) (effects p ++ [SaveToLocalStorage (menuData p)]).

Definition renderMenu (p : Page) : Page :=
  mkPage (menuData p) (effects p ++ [RenderMenu (menuData p)]).

Definition resetForm (p : Page) : Page :=
  mkPage (menuData p) (effects p ++ [ResetForm]).

Definition setMenuData (F : Forest) (p : Page) : Page :=
  mkPage F (effects p).

(** What the message box holds after the calls recorded in a log: each call
    of [showMessage] overwrites [textContent] and the class of the box, so
    the box holds the message of the last call (the timer that clears it
    runs seconds later). *)
Definition messageBox (log : list effect) : option (message * bool) :=
  fold_left
    (fun box e =>
       match e with
       | ShowMessage msg isError => Some (msg, isError)
       | _ => box
       end) log None.

(** The fields of the form.  The two id fields are given by the number they
    hold: [None] for an empty field (the handler reads [null]), [Some z] for
    a field whose text is the integer [z]. *)
Record Form : Type := mkForm {
  editingIdInput : option Z;
  nombreInput : jsstring;
  enlaceInput : jsstring;
  iconoInput : jsstring;
  parentIdInput : option Z
}.

(** A number or [null] as a condition: [null] and 0 are falsy. *)
Definition truthy (v : option Z) : option Z :=
  match v with
  | Some z => if z =? 0 then None else Some z
  | None => None
  end.

(** [icono || ""] *)
Definition or_empty (s : jsstring) : jsstring :=
  if truthy_string s then s else [].

Definition deleteItem (confirmed : bool) (target : Z) (p : Page) : Page :=
  if negb confirmed then p
  else
    let p := setMenuData (filterOut target (menuData p)) p in
    let p := saveToLocalStorage p in
    let p := renderMenu p in
    showMessage MsgEliminado false p.

(** The assignments of the edit branch. *)
Definition set_fields (nombre enlace icono : jsstring)
    (item : MenuEntry) : MenuEntry :=
  mkEntry (id item) nombre enlace (Some (or_empty icono)) (submenu item).

(** [parent.submenu = parent.submenu || []; parent.submenu.push(newItem)] *)
Definition push_submenu (newItem : MenuEntry) (parent : MenuEntry)
  : MenuEntry :=
  mkEntry (id parent) (nombre parent) (enlace parent) (icon parent)
    (Some (match submenu parent with
           | Some l => l
           | None => []
           end ++ [newItem])).

(** The object that the create branch builds. *)
Definition newItem (newId : Z) (nombre enlace icono : jsstring) : MenuEntry :=
  mkEntry newId nombre enlace (Some (or_empty icono)) None.

(** The submit handler of the form. *)
Definition submit (form : Form) (p : Page) : Page :=
  let editingId := editingIdInput form in
  let nombre := trim (nombreInput form) in
  let enlace := trim (enlaceInput form) in
  let icono := trim (iconoInput form) in
  let parentId := parentIdInput form in
  if negb (truthy_string nombre) then
    showMessage MsgNombreObligatorio true p
  else if negb (validateUrl enlace) then
    showMessage MsgEnlaceInvalido true p
  else
    let finish (p : Page) := resetForm (renderMenu (saveToLocalStorage p)) in
    match truthy editingId with
    | Some editingId =>
        match findById editingId (menuData p) with
        | None => showMessage MsgEditarNoEncontrado true p
        | Some _ =>
            let p :=
              setMenuData
                (assign editingId (set_fields nombre enlace icono)
                   (menuData p)) p in
            finish (showMessage MsgActualizado false p)
        end
    | None =>
        let newId := nextId (menuData p) in
        let newItem := newItem newId nombre enlace icono in
        let p :=
          match truthy parentId with
          | Some parentId =>
              match findById parentId (menuData p) with
              | None =>
                  let p := showMessage MsgParentNoEncontrado false p in
                  setMenuData (menuData p ++ [newItem]) p
              | Some _ =>
                  setMenuData
                    (assign parentId (push_submenu newItem) (menuData p)) p
              end
          | None => setMenuData (menuData p ++ [newItem]) p
          end in
        finish (showMessage MsgAnadida false p)
    end.

(** ** The entries of a forest, flattened *)

(** What an entry holds itself: where it is (the ids of its ancestors, from
    the root down), its fields, and how many children it has. *)
Record View : Type := mkView {
  vpath : list Z;
  vid : Z;
  vnombre : jsstring;
  venlace : jsstring;
  vicon : option jsstring;
  vkids : option nat
}.

Definition view_of (path : list Z) (it : MenuEntry) : View :=
  mkView path (id it) (nombre it) (enlace it) (icon it)
    (option_map (@List.length MenuEntry) (submenu it)).

(** Entries in the order of the depth-first traversal. *)
Fixpoint views_entry (path : list Z) (it : MenuEntry) : list View :=
  view_of path it ::
  match submenu it with
  | Some l => flat_map (views_entry (path ++ [id it])) l
  | None => []
  end.

Definition views (path : list Z) (F : Forest) : list View :=
  flat_map (views_entry path) F.

Definition all_ids (F : Forest) : list Z := List.map vid (views [] F).

(** The largest of 0 and the numbers of a list. *)
Definition maximum (l : list Z) : Z := fold_right Z.max 0 l.

(** A view without its number of children (whether it has a submenu at all
    is kept). *)
Definition forget_kids (v : View) : View :=
  mkView (vpath v) (vid v) (vnombre v) (venlace v) (vicon v)
    (option_map (fun _ => 0%nat) (vkids v)).

(** [under target v]: the entry seen by [v] has id [target] or lies below an
    entry that has. *)
Definition under (target : Z) (v : View) : bool :=
  existsb (Z.eqb target) (vpath v ++ [vid v]).

Definition outside (target : Z) (v : View) : bool := negb (under target v).

(** ** The strings that validateUrl is said to accept *)

(** [strip_prefix_ci prefix s]: what follows [prefix] in [s], when [s] begins
    with [prefix] up to the case of ASCII letters. *)
Fixpoint strip_prefix_ci (prefix s : jsstring) : option jsstring :=
  match prefix, s with
  | [], _ => Some s
  | p :: prefix', d :: s' =>
      if (canonicalize d =? canonicalize p)%N then strip_prefix_ci prefix' s'
      else None
  | _ :: _, [] => None
  end.

Definition prefixes : list jsstring :=
  [lit "/"; lit "http://"; lit "https://"].

(** One of the prefixes, then a character that is not a line terminator. *)
Definition prefix_then_char (url : jsstring) : bool :=
  existsb
    (fun p =>
       match strip_prefix_ci p url with
       | Some (c :: _) => negb (is_line_terminator c)
       | _ => false
       end) prefixes.

(** ** Vocabulary for the submit handler *)

(** The form passes the two validations. *)
Definition accepted (form : Form) : Prop :=
  trim (nombreInput form) <> [] /\
  validateUrl (trim (enlaceInput form)) = true.

(** The entry that the create branch makes from the form. *)
Definition created (form : Form) (F : Forest) : MenuEntry :=
  mkEntry (nextId F) (trim (nombreInput form)) (trim (enlaceInput form))
    (Some (trim (iconoInput form))) None.

(** The form with another parent id. *)
Definition with_parent (v : option Z) (form : Form) : Form :=
  mkForm (editingIdInput form) (nombreInput form) (enlaceInput form)
    (iconoInput form) v.

(** ** JSON: values, JSON.stringify with an indentation of 2, JSON.parse *)

Module JSON.

Local Open Scope N_scope.

(** A number is an integer here: the forest holds no other numbers.  An
    object is the list of its members in the order of its keys. *)
#[local] Unset Elimination Schemes.
Inductive value : Type :=
| JNull
| JBool (b : bool)
| JNumber (z : Z)
| JString (s : jsstring)
| JArray (elements : list value)
| JObject (members : list (jsstring * value)).
#[local] Set Elimination Schemes.

(** *** QuoteJSONString *)

Definition hex_digit (n : N) : code_unit :=
  if n <? 10 then 48 + n else 87 + n.

(** [\uXXXX], in lower case. *)
Definition unicode_escape (c : code_unit) : jsstring :=
  [92; 117; hex_digit (c / 4096 mod 16); hex_digit (c / 256 mod 16);
   hex_digit (c / 16 mod 16); hex_digit (c mod 16)].

Definition is_leading_surrogate (c : code_unit) : bool :=
  (55296 <=? c) && (c <=? 56319).

Definition is_trailing_surrogate (c : code_unit) : bool :=
  (56320 <=? c) && (c <=? 57343).

(** A code unit that is not a surrogate. *)
Definition quote_unit (c : code_unit) : jsstring :=
  if c =? 8 then [92; 98]
  else if c =? 9 then [92; 116]
  else if c =? 10 then [92; 110]
  else if c =? 12 then [92; 102]
  else if c =? 13 then [92; 114]
  else if c =? 34 then [92; 34]
  else if c =? 92 then [92; 92]
  else if c <? 32 then unicode_escape c
  else [c].

(** The string is read by code points: a surrogate pair is written as it is,
    a surrogate on its own is escaped. *)
Fixpoint quote_body (s : jsstring) : jsstring :=
  match s with
  | [] => []
  | c :: rest =>
      if is_leading_surrogate c then
        match rest with
        | d :: rest' =>
            if is_trailing_surrogate d then c :: d :: quote_body rest'
            else unicode_escape c ++ quote_body rest
        | [] => unicode_escape c
        end
      else if is_trailing_surrogate c then unicode_escape c ++ quote_body rest
      else quote_unit c ++ quote_body rest
  end.

Definition quote (s : jsstring) : jsstring := 34 :: quote_body s ++ [34].

(** *** Numbers *)

Fixpoint digits (u : Decimal.uint) : jsstring :=
  match u with
  | Decimal.Nil => []
  | Decimal.D0 u => 48 :: digits u
  | Decimal.D1 u => 49 :: digits u
  | Decimal.D2 u => 50 :: digits u
  | Decimal.D3 u => 51 :: digits u
  | Decimal.D4 u => 52 :: digits u
  | Decimal.D5 u => 53 :: digits u
  | Decimal.D6 u => 54 :: digits u
  | Decimal.D7 u => 55 :: digits u
  | Decimal.D8 u => 56 :: digits u
  | Decimal.D9 u => 57 :: digits u
  end.

(** Number::toString of an integer: its decimal digits, after a minus sign
    when it is negative. *)
Definition number_to_string (z : Z) : jsstring :=
  match Z.to_int z with
  | Decimal.Pos u => digits u
  | Decimal.Neg u => 45 :: digits u
  end.

(** *** SerializeJSONProperty, with the gap of two spaces *)

Definition gap : jsstring := [32; 32].

Fixpoint join (sep : jsstring) (parts : list jsstring) : jsstring :=
  match parts with
  | [] => []
  | [x] => x
  | x :: rest => x ++ sep ++ join sep rest
  end.

Fixpoint serialize (indent : jsstring) (v : value) : jsstring :=
  match v with
  | JNull => lit "null"
  | JBool true => lit "true"
  | JBool false => lit "false"
  | JNumber z => number_to_string z
  | JString s => quote s
  | JArray [] => lit "[]"
  | JArray elements =>
      let stepback := indent in
      let indent := indent ++ gap in
      [91; 10] ++ indent
      ++ join ([44; 10] ++ indent) (List.map (serialize indent) elements)
      ++ [10] ++ stepback ++ [93]
  | JObject [] => lit "{}"
  | JObject members =>
      let stepback := indent in
      let indent := indent ++ gap in
      [123; 10] ++ indent
      ++ join ([44; 10] ++ indent)
           (List.map
              (fun kv => quote (fst kv) ++ [58; 32] ++ serialize indent (snd kv))
              members)
      ++ [10] ++ stepback ++ [125]
  end.

(** [JSON.stringify(v, null, 2)] *)
Definition stringify (v : value) : jsstring := serialize [] v.

(** *** JSON.parse *)

Definition is_json_space (c : code_unit) : bool :=
  (c =? 9) || (c =? 10) || (c =? 13) || (c =? 32).

Fixpoint skip_ws (s : jsstring) : jsstring :=
  match s with
  | c :: rest => if is_json_space c then skip_ws rest else s
  | [] => []
  end.

Definition hex_value (c : code_unit) : option N :=
  if (48 <=? c) && (c <=? 57) then Some (c - 48)
  else if (97 <=? c) && (c <=? 102) then Some (c - 87)
  else if (65 <=? c) && (c <=? 70) then Some (c - 55)
  else None.

(** The character that follows a backslash, [u] apart. *)
Definition unescape (c : code_unit) : option code_unit :=
  if c =? 34 then Some 34
  else if c =? 92 then Some 92
  else if c =? 47 then Some 47
  else if c =? 98 then Some 8
  else if c =? 102 then Some 12
  else if c =? 110 then Some 10
  else if c =? 114 then Some 13
  else if c =? 116 then Some 9
  else None.

Definition prepend (c : code_unit) (r : option (jsstring * jsstring))
  : option (jsstring * jsstring) :=
  match r with
  | Some (str, rest) => Some (c :: str, rest)
  | None => None
  end.

(** The characters of a string up to its closing quote, and what follows
    the quote. *)
Fixpoint parse_string_body (s : jsstring) : option (jsstring * jsstring) :=
  match s with
  | [] => None
  | c :: rest =>
      if c =? 34 then Some ([], rest)
      else if c =? 92 then
        match rest with
        | e :: rest' =>
            if e =? 117 then
              match rest' with
              | h1 :: h2 :: h3 :: h4 :: rest'' =>
                  match hex_value h1, hex_value h2,
                        hex_value h3, hex_value h4 with
                  | Some a, Some b, Some c, Some d =>
                      prepend (a * 4096 + b * 256 + c * 16 + d)
                        (parse_string_body rest'')
                  | _, _, _, _ => None
                  end
              | _ => None
              end
            else
              match unescape e with
              | Some u => prepend u (parse_string_body rest')
              | None => None
              end
        | [] => None
        end
      else if c <? 32 then None
      else prepend c (parse_string_body rest)
  end.

Definition digit_of (c : code_unit) : option (Decimal.uint -> Decimal.uint) :=
  if c =? 48 then Some Decimal.D0
  else if c =? 49 then Some Decimal.D1
  else if c =? 50 then Some Decimal.D2
  else if c =? 51 then Some Decimal.D3
  else if c =? 52 then Some Decimal.D4
  else if c =? 53 then Some Decimal.D5
  else if c =? 54 then Some Decimal.D6
  else if c =? 55 then Some Decimal.D7
  else if c =? 56 then Some Decimal.D8
  else if c =? 57 then Some Decimal.D9
  else None.

(** The longest run of digits at the head of a string. *)
Fixpoint parse_digits (s : jsstring) : Decimal.uint * jsstring :=
  match s with
  | c :: rest =>
      match digit_of c with
      | Some d => let (u, r) := parse_digits rest in (d u, r)
      | None => (Decimal.Nil, s)
      end
  | [] => (Decimal.Nil, [])
  end.

(** A fraction or an exponent would follow the digits. *)
Definition continues_number (s : jsstring) : bool :=
  match s with
  | c :: _ => (c =? 46) || (c =? 101) || (c =? 69)
  | [] => false
  end.

(** An integer literal: an optional minus sign, then 0 or digits that do
    not begin with 0.  Fractions and exponents, which [number_to_string]
    never writes, are outside the model: the parser stops on them. *)
Definition parse_number (s : jsstring) : option (value * jsstring) :=
  let (negative, s1) :=
    match s with
    | c :: rest => if c =? 45 then (true, rest) else (false, s)
    | [] => (false, s)
    end in
  let (u, rest) := parse_digits s1 in
  match u with
  | Decimal.Nil => None
  | Decimal.D0 (Decimal.Nil) | Decimal.D1 _ | Decimal.D2 _ | Decimal.D3 _
  | Decimal.D4 _ | Decimal.D5 _ | Decimal.D6 _ | Decimal.D7 _
  | Decimal.D8 _ | Decimal.D9 _ =>
      if continues_number rest then None
      else
        Some (JNumber (Z.of_int (if negative then Decimal.Neg u
                                 else Decimal.Pos u)), rest)
  | Decimal.D0 _ => None
  end.

Fixpoint strip_prefix (prefix s : jsstring) : option jsstring :=
  match prefix, s with
  | [], _ => Some s
  | p :: prefix', c :: s' => if c =? p then strip_prefix prefix' s' else None
  | _ :: _, [] => None
  end.

Definition parse_literal (word : string) (v : value) (s : jsstring)
  : option (value * jsstring) :=
  match strip_prefix (lit word) s with
  | Some rest => Some (v, rest)
  | None => None
  end.

Definition jsstring_eqb (a b : jsstring) : bool :=
  if list_eq_dec N.eq_dec a b then true else false.

(** Defining the property [k] of an object under construction: a key that
    is there already keeps its place and takes the new value. *)
Fixpoint define_property (k : jsstring) (v : value)
    (members : list (jsstring * value)) : list (jsstring * value) :=
  match members with
  | [] => [(k, v)]
  | (k', v') :: rest =>
      if jsstring_eqb k' k then (k', v) :: rest
      else (k', v') :: define_property k v rest
  end.

Definition make_object (members : list (jsstring * value)) : value :=
  JObject
    (fold_left (fun acc kv => define_property (fst kv) (snd kv) acc)
       members []).

(** Recursive descent, with a bound on the number of nested calls. *)
Fixpoint parse_value (fuel : nat) (s : jsstring) : option (value * jsstring) :=
  match fuel with
  | O => None
  | S fuel =>
      match skip_ws s with
      | [] => None
      | c :: rest =>
          if c =? 123 then
            match skip_ws rest with
            | [] => None
            | c' :: rest' =>
                if c' =? 125 then Some (JObject [], rest')
                else
                  match parse_members fuel rest with
                  | Some (members, r) => Some (make_object members, r)
                  | None => None
                  end
            end
          else if c =? 91 then
            match skip_ws rest with
            | [] => None
            | c' :: rest' =>
                if c' =? 93 then Some (JArray [], rest')
                else
                  match parse_elements fuel rest with
                  | Some (elements, r) => Some (JArray elements, r)
                  | None => None
                  end
            end
          else if c =? 34 then
            match parse_string_body rest with
            | Some (str, r) => Some (JString str, r)
            | None => None
            end
          else if c =? 116 then parse_literal "true" (JBool true) (c :: rest)
          else if c =? 102 then parse_literal "false" (JBool false) (c :: rest)
          else if c =? 110 then parse_literal "null" JNull (c :: rest)
          else parse_number (c :: rest)
      end
  end

with parse_elements (fuel : nat) (s : jsstring)
  : option (list value * jsstring) :=
  match fuel with
  | O => None
  | S fuel =>
      match parse_value fuel s with
      | Some (v, r) =>
          match skip_ws r with
          | [] => None
          | c :: r' =>
              if c =? 44 then
                match parse_elements fuel r' with
                | Some (vs, r'') => Some (v :: vs, r'')
                | None => None
                end
              else if c =? 93 then Some ([v], r')
              else None
          end
      | None => None
      end
  end

with parse_members (fuel : nat) (s : jsstring)
  : option (list (jsstring * value) * jsstring) :=
  match fuel with
  | O => None
  | S fuel =>
      match skip_ws s with
      | [] => None
      | q :: r0 =>
          if q =? 34 then
            match parse_string_body r0 with
            | Some (k, r1) =>
                match skip_ws r1 with
                | [] => None
                | colon :: r2 =>
                    if colon =? 58 then
                      match parse_value fuel r2 with
                      | Some (v, r3) =>
                          match skip_ws r3 with
                          | [] => None
                          | c :: r4 =>
                              if c =? 44 then
                                match parse_members fuel r4 with
                                | Some (ms, r5) => Some ((k, v) :: ms, r5)
                                | None => None
                                end
                              else if c =? 125 then Some ([(k, v)], r4)
                              else None
                          end
                      | None => None
                      end
                    else None
                end
            | None => None
            end
          else None
      end
  end.

(** [JSON.parse]: one value, with nothing but white space around it. *)
Definition parse (text : jsstring) : option value :=
  match parse_value (S (List.length text)) text with
  | Some (v, rest) =>
      match skip_ws rest with
      | [] => Some v
      | _ :: _ => None
      end
  | None => None
  end.

End JSON.

(** ** The forest as a JSON value *)

(** The object of an entry: its properties in the order [id], [nombre],
    [enlace], [icon], [submenu], the absent ones left out.  This is the
    order in which the create branch defines them; an object that got its
    [icon] or its [submenu] later has them in the order of the additions,
    which moves them in the text and changes nothing in what is read
    back. *)
Fixpoint entry_value (it : MenuEntry) : JSON.value :=
  JSON.JObject
    ([(lit "id", JSON.JNumber (id it));
      (lit "nombre", JSON.JString (nombre it));
      (lit "enlace", JSON.JString (enlace it))]
     ++ match icon it with
        | Some s => [(lit "icon", JSON.JString s)]
        | None => []
        end
     ++ match submenu it with
        | Some l => [(lit "submenu", JSON.JArray (List.map entry_value l))]
        | None => []
        end).

Definition forest_value (F : Forest) : JSON.value :=
  JSON.JArray (List.map entry_value F).

(** [{ menu: menuData }] *)
Definition menu_object (F : Forest) : JSON.value :=
  JSON.JObject [(lit "menu", forest_value F)].

(** The text that [updateJsonView] puts in the side panel. *)
Definition updateJsonView (p : Page) : jsstring :=
  JSON.stringify (menu_object (menuData p)).

(** The text that the export button puts in the downloaded file. *)
Definition exportJson (p : Page) : jsstring :=
  JSON.stringify (menu_object (menuData p)).

(** ** Vocabulary for the round trip through JSON *)

(** What may follow a value in the text that [serialize] writes: the end of
    the text, a comma or a line feed. *)
Definition delimited (rest : jsstring) : Prop :=
  match rest with
  | [] => True
  | c :: _ => c = 44%N \/ c = 10%N
  end.

(** The character that opens a value: it tells which value follows. *)
Definition opener (c : code_unit) : Prop :=
  (c = 110 \/ c = 116 \/ c = 102 \/ c = 34 \/ c = 91 \/ c = 123
   \/ c = 45 \/ 48 <= c <= 57)%N.

(** An indentation is made of white space. *)
Definition all_space (s : jsstring) : Prop :=
  Forall (fun c => JSON.is_json_space c = true) s.

(** The number of values in a value, itself and one step per element or
    member included: the nesting that the parser needs. *)
Fixpoint size (v : JSON.value) : nat :=
  match v with
  | JSON.JArray l => S (list_sum (List.map (fun x => S (size x)) l))
  | JSON.JObject m =>
      S (list_sum (List.map (fun kv => S (size (snd kv))) m))
  | _ => 1
  end.

(** No object has the same key twice. *)
#[local] Unset Elimination Schemes.
Inductive distinct_keys : JSON.value -> Prop :=
| dk_null : distinct_keys JSON.JNull
| dk_bool b : distinct_keys (JSON.JBool b)
| dk_number z : distinct_keys (JSON.JNumber z)
| dk_string s : distinct_keys (JSON.JString s)
| dk_array l : Forall distinct_keys l -> distinct_keys (JSON.JArray l)
| dk_object m :
    NoDup (List.map fst m) ->
    Forall (fun kv => distinct_keys (snd kv)) m ->
    distinct_keys (JSON.JObject m).
#[local] Set Elimination Schemes.

(** [round_trips v]: the text of [v], at any indentation and before any
    delimiter, is parsed back to [v] as soon as the bound on the nesting
    reaches the size of [v]. *)
Definition round_trips (v : JSON.value) : Prop :=
  forall (fuel : nat) (indent rest : jsstring),
    (size v <= fuel)%nat -> all_space indent -> delimited rest ->
    JSON.parse_value fuel (JSON.serialize indent v ++ rest) = Some (v, rest).

(** The text of one member of an object. *)
Definition member_text (indent : jsstring) (kv : jsstring * JSON.value)
  : jsstring :=
  JSON.quote (fst kv) ++ [58; 32]%N ++ JSON.serialize indent (snd kv).

(** Induction over values, with the property known of the elements of an
    array and of the members of an object. *)
Section value_induction.
Variable P : JSON.value -> Prop.
Hypothesis P_null : P JSON.JNull.
Hypothesis P_bool : forall b, P (JSON.JBool b).
Hypothesis P_number : forall z, P (JSON.JNumber z).
Hypothesis P_string : forall s, P (JSON.JString s).
Hypothesis P_array : forall l, Forall P l -> P (JSON.JArray l).
Hypothesis P_object :
  forall m, Forall (fun kv => P (snd kv)) m -> P (JSON.JObject m).

Fixpoint value_induction (v : JSON.value) : P v :=
  match v with
  | JSON.JNull => P_null
  | JSON.JBool b => P_bool b
  | JSON.JNumber z => P_number z
  | JSON.JString s => P_string s
  | JSON.JArray l =>
      P_array
        ((fix go (l : list JSON.value) : Forall P l :=
            match l with
            | [] => Forall_nil P
            | x :: r => Forall_cons x (value_induction x) (go r)
            end) l)
  | JSON.JObject m =>
      P_object
        ((fix go (m : list (jsstring * JSON.value))
            : Forall (fun kv => P (snd kv)) m :=
            match m with
            | [] => Forall_nil _
            | (k, x) :: r =>
                Forall_cons (A := jsstring * JSON.value)
                  (P := fun kv => P (snd kv)) (k, x) (value_induction x) (go r)
            end) m)
  end.
End value_induction.

(** ** Further vocabulary for the forest operations *)

(** [parent.submenu = parent.submenu || []] on its own: the entry with a
    submenu array, its own if it has one. *)
Definition with_submenu_array (parent : MenuEntry) : MenuEntry :=
  mkEntry (id parent) (nombre parent) (enlace parent) (icon parent)
    (Some match submenu parent with
          | Some l => l
          | None => []
          end).

(** Every id of the forest is below 2^53: the sum [max + 1] of [nextId] is
    exact. *)
Definition below_2_53 (F : Forest) : Prop :=
  forall i, In i (all_ids F) -> i < 2 ^ 53.

(** ** escapeHtml *)

(** [s.replace(/c/g, by)] for one literal character [c] and a replacement
    without [$]: every [c] becomes [by], the rest stays. *)
Definition replace_all (c : code_unit) (by_ : jsstring) (s : jsstring)
  : jsstring :=
  flat_map (fun d => if (d =? c)%N then by_ else [d]) s.

Definition escapeHtml (str : jsstring) : jsstring :=
  if negb (truthy_string str) then []
  else
    replace_all 34 (lit "&quot;")
      (replace_all 62 (lit "&gt;")
         (replace_all 60 (lit "&lt;")
            (replace_all 38 (lit "&amp;") str))).

(** What [escapeHtml] makes of one character. *)
Definition escape_unit (c : code_unit) : jsstring :=
  if (c =? 38)%N then lit "&amp;"
  else if (c =? 60)%N then lit "&lt;"
  else if (c =? 62)%N then lit "&gt;"
  else if (c =? 34)%N then lit "&quot;"
  else [c].

(** The characters that [escapeHtml] replaces: ampersand, less-than,
    greater-than and the double quote. *)
Definition is_html_special (c : code_unit) : bool :=
  ((c =? 38) || (c =? 60) || (c =? 62) || (c =? 34))%N.

(** The four entities, without their ampersand. *)
Definition entity_tails : list jsstring :=
  [lit "amp;"; lit "lt;"; lit "gt;"; lit "quot;"].

(** ** JSON.stringify with one argument, and the stored forest *)

(** SerializeJSONProperty with an empty gap: no line breaks, no spaces. *)
Fixpoint serialize_compact (v : JSON.value) : jsstring :=
  match v with
  | JSON.JNull => lit "null"
  | JSON.JBool true => lit "true"
  | JSON.JBool false => lit "false"
  | JSON.JNumber z => JSON.number_to_string z
  | JSON.JString s => JSON.quote s
  | JSON.JArray [] => lit "[]"
  | JSON.JArray elements =>
      [91%N]
      ++ JSON.join [44%N] (List.map serialize_compact elements)
      ++ [93%N]
  | JSON.JObject [] => lit "{}"
  | JSON.JObject members =>
      [123%N]
      ++ JSON.join [44%N]
           (List.map
              (fun kv =>
                 JSON.quote (fst kv) ++ [58%N] ++ serialize_compact (snd kv))
              members)
      ++ [125%N]
  end.

(** [JSON.stringify(menuData)]: the text that [saveToLocalStorage] puts
    under the key ["menuData"], for the value [menu] that [menuData] is.
    The members of each object are written in the order in which the
    object has them. *)
Definition storedText (menu : JSON.value) : jsstring :=
  serialize_compact menu.


(** What may follow a value in the text that [serialize_compact] writes:
    the end of the text, a comma or a closing bracket or brace. *)
Definition closed (rest : jsstring) : Prop :=
  match rest with
  | [] => True
  | c :: _ => c = 44%N \/ c = 93%N \/ c = 125%N
  end.

Definition round_trips_compact (v : JSON.value) : Prop :=
  forall (fuel : nat) (rest : jsstring),
    (size v <= fuel)%nat -> closed rest ->
    JSON.parse_value fuel (serialize_compact v ++ rest) = Some (v, rest).

(** The text of one member of an object, without spaces. *)
Definition member_compact (kv : jsstring * JSON.value) : jsstring :=
  JSON.quote (fst kv) ++ [58%N] ++ serialize_compact (snd kv).

(** ** cargarMenu *)

(** The value that an object has under a key: that of the first member
    with the key. *)
Definition member (key : jsstring) (members : list (jsstring * JSON.value))
  : option JSON.value :=
  match find (fun kv => JSON.jsstring_eqb (fst kv) key) members with
  | Some kv => Some (snd kv)
  | None => None
  end.

Definition number_member (key : jsstring)
    (members : list (jsstring * JSON.value)) : option Z :=
  match member key members with
  | Some (JSON.JNumber z) => Some z
  | _ => None
  end.

Definition string_member (key : jsstring)
    (members : list (jsstring * JSON.value)) : option jsstring :=
  match member key members with
  | Some (JSON.JString s) => Some s
  | _ => None
  end.

(** A string that may be missing: [Some None] when the object has no member
    under the key. *)
Definition optional_string_member (key : jsstring)
    (members : list (jsstring * JSON.value)) : option (option jsstring) :=
  match member key members with
  | None => Some None
  | Some (JSON.JString s) => Some (Some s)
  | Some _ => None
  end.

(** The keys of the object of an entry. *)
Definition entry_keys : list jsstring :=
  [lit "id"; lit "nombre"; lit "enlace"; lit "icon"; lit "submenu"].

(** The entry whose object a value is.  The object holds a number under
    [id], strings under [nombre] and [enlace], possibly a string under
    [icon] and an array of such objects under [submenu], and nothing else;
    its members are looked up by key, so they may come in any order (the
    program adds [icon] and [submenu] to an object when it edits it or
    gives it a first child).  Any other value is not an entry of this
    model. *)
Fixpoint as_entry (v : JSON.value) : option MenuEntry :=
  match v with
  | JSON.JObject members =>
      let as_entries :=
        fix as_entries (l : list JSON.value) : option Forest :=
          match l with
          | [] => Some []
          | x :: rest =>
              match as_entry x, as_entries rest with
              | Some it, Some its => Some (it :: its)
              | _, _ => None
              end
          end in
      let submenu_member :=
        fix submenu_member (ms : list (jsstring * JSON.value))
          : option (option Forest) :=
          match ms with
          | [] => Some None
          | (k, x) :: rest =>
              if JSON.jsstring_eqb k (lit "submenu") then
                match x with
                | JSON.JArray l => option_map Some (as_entries l)
                | _ => None
                end
              else submenu_member rest
          end in
      if forallb (fun kv => existsb (JSON.jsstring_eqb (fst kv)) entry_keys)
           members
      then
        match number_member (lit "id") members,
              string_member (lit "nombre") members,
              string_member (lit "enlace") members,
              optional_string_member (lit "icon") members,
              submenu_member members with
        | Some i, Some n, Some e, Some ic, Some sub =>
            Some (mkEntry i n e ic sub)
        | _, _, _, _, _ => None
        end
      else None
  | _ => None
  end.

Fixpoint as_entries (l : list JSON.value) : option Forest :=
  match l with
  | [] => Some []
  | x :: rest =>
      match as_entry x, as_entries rest with
      | Some it, Some its => Some (it :: its)
      | _, _ => None
      end
  end.

(** The array of entries under [submenu], when the object has one. *)
Fixpoint submenu_member (ms : list (jsstring * JSON.value))
  : option (option Forest) :=
  match ms with
  | [] => Some None
  | (k, x) :: rest =>
      if JSON.jsstring_eqb k (lit "submenu") then
        match x with
        | JSON.JArray l => option_map Some (as_entries l)
        | _ => None
        end
      else submenu_member rest
  end.

(** The forest that a value is, when it is the array of a forest. *)
Definition as_forest (v : JSON.value) : option Forest :=
  match v with
  | JSON.JArray l => as_entries l
  | _ => None
  end.

(** [v[key]]: the member of an object; [None] stands for [undefined], which
    is also what the other values answer for a key like ["menu"]. *)
Definition property (key : jsstring) (v : JSON.value) : option JSON.value :=
  match v with
  | JSON.JObject members => member key members
  | _ => None
  end.

(** A value as a condition. *)
Definition falsy (v : JSON.value) : bool :=
  match v with
  | JSON.JNull => true
  | JSON.JBool b => negb b
  | JSON.JNumber z => z =? 0
  | JSON.JString s => negb (truthy_string s)
  | JSON.JArray _ | JSON.JObject _ => false
  end.

(** [data.menu || []]; reading a property of [null] throws. *)
Definition seed_menu (data : JSON.value) : option JSON.value :=
  match data with
  | JSON.JNull => None
  | _ =>
      Some match property (lit "menu") data with
           | Some menu => if falsy menu then JSON.JArray [] else menu
           | None => JSON.JArray []
           end
  end.

(** How the request for [menu.json] ends: [fetch] rejects, or answers with a
    status that is ok or not and a body. *)
Inductive fetched : Type :=
| FetchRejected
| FetchResponse (ok : bool) (body : jsstring).

(** What [cargarMenu] does besides setting [menuData], in order. *)
Inductive load_effect : Type :=
| LoadWarn                      (* console.warn: the stored text does not parse *)
| LoadSave (text : jsstring)    (* localStorage.setItem("menuData", text) *)
| LoadSaveFailed                (* setItem throws; console.error *)
| LoadRender (shown : Forest)   (* renderMenu() *)
| LoadJsonView (shown : Forest) (* updateJsonView() *)
| LoadError.                    (* showMessage("Error cargando menu.json...", true) *)

Record Loaded : Type := mkLoaded {
  loadedMenu : Forest;
  loadedStorage : option jsstring;
  loadEffects : list load_effect
}.

(** The second half of [cargarMenu]: the seed file.  [writable] tells
    whether [localStorage.setItem], called by [saveToLocalStorage],
    succeeds.  What is stored is the text of the value just parsed, the
    members of each object in the order of the file.  The answer [None] is
    for a seed whose menu is not a forest of the model. *)
Definition load_seed (writable : bool) (storage : option jsstring)
    (net : fetched) (menuData : Forest) : option Loaded :=
  let failed := Some (mkLoaded menuData storage [LoadError]) in
  match net with
  | FetchRejected => failed
  | FetchResponse ok body =>
      if negb ok then failed
      else
        match JSON.parse body with
        | None => failed
        | Some data =>
            match seed_menu data with
            | None => failed
            | Some menu =>
                match as_forest menu with
                | Some F =>
                    let text := storedText menu in
                    Some (mkLoaded F
                            (if writable then Some text else storage)
                            [if writable then LoadSave text
                             else LoadSaveFailed;
                             LoadRender F; LoadJsonView F])
                | None => None
                end
            end
        end
  end.


Definition after_warning (r : option Loaded) : option Loaded :=
  match r with
  | Some l =>
      Some (mkLoaded (loadedMenu l) (loadedStorage l)
              (LoadWarn :: loadEffects l))
  | None => None
  end.

(** [cargarMenu], given what [localStorage] holds under ["menuData"] and how
    the request for the seed would end.  The wait for the request is taken
    in one step: no other handler runs in between.  The answer [None] is for
    a stored text that parses to a value that is not a forest of the
    model. *)
Definition cargarMenu (writable : bool) (storage : option jsstring)
    (net : fetched) (menuData : Forest) : option Loaded :=
  match storage with
  | Some local =>
      if truthy_string local then
        match JSON.parse local with
        | Some v =>
            match as_forest v with
            | Some F =>
                Some (mkLoaded F storage [LoadRender F; LoadJsonView F])
            | None => None
            end
        | None => after_warning (load_seed writable storage net menuData)
        end
      else load_seed writable storage net menuData
  | None => load_seed writable storage net menuData
  end.

(** ** startEdit *)

(** The message that [startEdit] shows. *)
Inductive edit_notice : Type :=
| EditNotFound    (* "Elemento no encontrado para editar.", an error *)
| EditStarted.    (* "Editando elemento (haz cambios y presiona Guardar)." *)

(** What a text field of the form holds after a string has been assigned
    to its [value] depends on the type of the field, which the page
    declares and the script does not: it is a parameter here, one for each
    of the three text fields. *)
Section StartEdit.
Variables nombreValue enlaceValue iconoValue : jsstring -> jsstring.

(** [startEdit(id)]: the form after the call, and the message shown. *)
Definition startEdit (target : Z) (menuData : Forest) (form : Form)
  : Form * edit_notice :=
  match findById target menuData with
  | None => (form, EditNotFound)
  | Some item =>
      (mkForm (Some (id item))
         (nombreValue (or_empty (nombre item)))
         (enlaceValue (or_empty (enlace item)))
         (iconoValue match icon item with
                     | Some s => or_empty s
                     | None => []
                     end)
         None,
       EditStarted)
  end.

End StartEdit.

(** ** The button that opens and closes the menu *)

(** The attribute [aria-expanded] of the button, when it has one, and
    whether the list of classes of the menu holds [active]. *)
Record Toggle : Type := mkToggle {
  ariaExpanded : option jsstring;
  active : bool
}.

(** [getAttribute("aria-expanded") === "true"]; a button without the
    attribute answers [null]. *)
Definition expanded (t : Toggle) : bool :=
  match ariaExpanded t with
  | Some s => JSON.jsstring_eqb s (lit "true")
  | None => false
  end.

Definition toggleClick (t : Toggle) : Toggle :=
  mkToggle (Some (if negb (expanded t) then lit "true" else lit "false"))
    (negb (active t)).

(** The button and the menu agree: the attribute says ["true"] exactly
    when the menu is active. *)
Definition in_step (t : Toggle) : Prop := expanded t = active t.

(** ** The button that restores the seed *)


(** The icon that the form shows for an entry: [item.icon || ""]. *)
Definition shown_icon (item : MenuEntry) : jsstring :=
  match icon item with
  | Some s => s
  | None => []
  end.

(** * Properties *)

Unset Implicit Arguments.

(** A property of forests holds when it survives the two ways a forest is
    extended: below an entry and to the right of one. *)
Lemma forest_ind (Q : list MenuEntry -> Prop) :
  Q [] ->
  (forall it rest,
      (forall l, submenu it = Some l -> Q l) -> Q rest -> Q (it :: rest)) ->
  forall F : list MenuEntry, Q F.
Proof.
  intros Hnil Hcons.
  apply forest_entry_ind
    with (P := fun it => forall l, submenu it = Some l -> Q l).
  - intros i n e ic l H. discriminate H.
  - intros i n e ic l Hl l' H. simpl in H. injection H as <-. exact Hl.
  - exact Hnil.
  - intros it rest Hit Hrest. apply Hcons; assumption.
Qed.

(** ** Unfolding the traversals *)

Lemma search_entry_eq target it :
  search_entry target it =
  if id it =? target then Some it
  else match submenu it with
       | Some l => search target l
       | None => None
       end.
Proof.
  destruct it as [i n e ic [l|]]; simpl; try reflexivity.
  destruct (i =? target); [reflexivity|].
  induction l as [|x r IH]; simpl; [reflexivity|].
  rewrite IH. reflexivity.
Qed.

Lemma filterOut_kept_eq target it :
  filterOut_kept target it =
  mkEntry (id it) (nombre it) (enlace it) (icon it)
    (option_map (filterOut target) (submenu it)).
Proof.
  destruct it as [i n e ic [l|]]; simpl; try reflexivity.
  do 2 f_equal.
  induction l as [|x r IH]; simpl; [reflexivity|].
  rewrite IH. reflexivity.
Qed.

Lemma mutate_entry_eq target f it :
  mutate_entry target f it =
  if id it =? target then Some (f it)
  else match submenu it with
       | Some l =>
           option_map
             (fun l' =>
                mkEntry (id it) (nombre it) (enlace it) (icon it) (Some l'))
             (mutate target f l)
       | None => None
       end.
Proof.
  destruct it as [i n e ic [l|]]; simpl; try reflexivity.
  destruct (i =? target); [reflexivity|].
  match goal with
  | |- match ?a with _ => _ end = option_map _ ?b => replace a with b
  end; [destruct (mutate target f l); reflexivity|].
  induction l as [|x r IH]; simpl; [reflexivity|].
  rewrite IH. reflexivity.
Qed.

(** ** The entries of a forest, flattened *)

Lemma views_cons path it rest :
  views path (it :: rest) =
  view_of path it ::
  match submenu it with
  | Some l => views (path ++ [id it]) l
  | None => []
  end ++ views path rest.
Proof. destruct it as [i n e ic [l|]]; reflexivity. Qed.

Lemma ids_views_path p q F :
  List.map vid (views p F) = List.map vid (views q F).
Proof.
  revert p q. induction F as [|it rest IHsub IHrest] using forest_ind;
    intros p q; [reflexivity|].
  rewrite !views_cons. simpl. rewrite !map_app. f_equal. f_equal.
  - destruct (submenu it) as [l|]; [apply (IHsub l eq_refl)|reflexivity].
  - apply IHrest.
Qed.

Lemma all_ids_cons it rest :
  all_ids (it :: rest) =
  id it :: match submenu it with
           | Some l => all_ids l
           | None => []
           end ++ all_ids rest.
Proof.
  unfold all_ids. rewrite views_cons. simpl. rewrite map_app.
  destruct (submenu it) as [l|]; [|reflexivity].
  rewrite (ids_views_path _ [] l). reflexivity.
Qed.

(** ** nextId *)

Lemma maximum_app l1 l2 :
  maximum (l1 ++ l2) = Z.max (maximum l1) (maximum l2).
Proof.
  unfold maximum. induction l1 as [|a l1 IH]; simpl.
  - assert (0 <= fold_right Z.max 0 l2).
    { induction l2; simpl; lia. }
    lia.
  - rewrite IH. lia.
Qed.

Lemma maximum_nonneg l : 0 <= maximum l.
Proof. unfold maximum. induction l; simpl; lia. Qed.

Lemma maximum_ge l i : In i l -> i <= maximum l.
Proof.
  unfold maximum. induction l as [|a l IH]; simpl; [tauto|].
  intros [->|H]; [lia|]. specialize (IH H). lia.
Qed.

Lemma fold_check F :
  forall max, 0 <= max -> fold_left check F max = Z.max max (maximum (all_ids F)).
Proof.
  induction F as [|it rest IHsub IHrest] using forest_ind; intros max Hmax.
  - simpl. unfold maximum. simpl. lia.
  - simpl fold_left. rewrite all_ids_cons.
    change (maximum (id it :: ?l)) with (Z.max (id it) (maximum l)).
    rewrite maximum_app.
    assert (Hc : check max it =
                 Z.max max (Z.max (id it)
                   (maximum match submenu it with
                            | Some l => all_ids l
                            | None => []
                            end))).
    { destruct it as [i n e ic [l|]]; simpl.
      - specialize (IHsub l eq_refl).
        assert (Hm1 : (if negb (i =? 0) && (i >? max) then i else max)
                      = Z.max max i).
        { destruct (Z.eqb_spec i 0); destruct (Z.gtb_spec i max); simpl; lia. }
        rewrite Hm1.
        destruct l as [|x l']; [simpl; unfold maximum; simpl; lia|].
        change (0 <? Z.of_nat (Datatypes.length (x :: l'))) with true.
        cbv iota. rewrite IHsub by lia. lia.
      - unfold maximum. simpl.
        destruct (Z.eqb_spec i 0); destruct (Z.gtb_spec i max); simpl; lia. }
    rewrite Hc. rewrite IHrest by lia.
    pose proof (maximum_nonneg (all_ids rest)). lia.
Qed.

Lemma nextId_eq F : nextId F = add_one (maximum (all_ids F)).
Proof.
  unfold nextId. rewrite fold_check by lia.
  pose proof (maximum_nonneg (all_ids F)). f_equal. lia.
Qed.

Lemma add_one_exact max : max < 2 ^ 53 -> add_one max = max + 1.
Proof.
  intros H. unfold add_one.
  destruct (Z.ltb_spec max (2 ^ 53)); [reflexivity|lia].
Qed.

Lemma add_one_mono a b : a <= b -> add_one a <= add_one b.
Proof.
  intros H. unfold add_one.
  change (2 ^ 53) with 9007199254740992.
  change (2 ^ 54) with 18014398509481984.
  pose proof (Z.div_mod (a + 2) 4 ltac:(lia)) as Ha.
  pose proof (Z.mod_pos_bound (a + 2) 4 ltac:(lia)) as Ha'.
  pose proof (Z.div_mod (b + 2) 4 ltac:(lia)) as Hb.
  pose proof (Z.mod_pos_bound (b + 2) 4 ltac:(lia)) as Hb'.
  pose proof (Z.div_le_mono (a + 2) (b + 2) 4 ltac:(lia) ltac:(lia)) as Hd.
  destruct (Z.ltb_spec a 9007199254740992);
    destruct (Z.ltb_spec b 9007199254740992);
    destruct (Z.ltb_spec a 18014398509481984);
    destruct (Z.ltb_spec b 18014398509481984); lia.
Qed.

Lemma search_fresh target F :
  (forall i, In i (all_ids F) -> i <> target) -> search target F = None.
Proof.
  induction F as [|it rest IHsub IHrest] using forest_ind; intros H;
    [reflexivity|].
  simpl. rewrite search_entry_eq. rewrite all_ids_cons in H.
  destruct (Z.eqb_spec (id it) target) as [E|_].
  { exfalso. apply (H (id it)); [left; reflexivity|exact E]. }
  assert (Hsub : match submenu it with
                 | Some l => search target l
                 | None => None
                 end = None).
  { destruct (submenu it) as [l|]; [|reflexivity].
    apply (IHsub l eq_refl). intros i Hi. apply H. right.
    apply in_or_app. left. exact Hi. }
  rewrite Hsub. apply IHrest. intros i Hi. apply H. right.
  apply in_or_app. right. exact Hi.
Qed.

Lemma search_found target F e :
  search target F = Some e -> id e = target /\ In target (all_ids F).
Proof.
  induction F as [|it rest IHsub IHrest] using forest_ind; [discriminate|].
  simpl. rewrite search_entry_eq, all_ids_cons.
  destruct (Z.eqb_spec (id it) target) as [E|_].
  { intros [= <-]. split; [exact E|left; exact E]. }
  destruct (submenu it) as [l|].
  - destruct (search target l) as [r|] eqn:Hl.
    + intros [= <-]. destruct (IHsub l eq_refl Hl) as [? ?].
      split; [assumption|]. right. apply in_or_app. left. assumption.
    + intros H. destruct (IHrest H) as [? ?].
      split; [assumption|]. right. apply in_or_app. right. assumption.
  - intros H. destruct (IHrest H) as [? ?].
    split; [assumption|]. right. simpl. assumption.
Qed.

(** ** deleteItem *)

Lemma search_filterOut target F : search target (filterOut target F) = None.
Proof.
  induction F as [|it rest IHsub IHrest] using forest_ind; [reflexivity|].
  simpl. destruct (Z.eqb_spec (id it) target) as [E|NE]; [exact IHrest|].
  simpl. rewrite search_entry_eq, filterOut_kept_eq. simpl.
  destruct (Z.eqb_spec (id it) target) as [E|_]; [contradiction|].
  destruct (submenu it) as [l|]; simpl; [|exact IHrest].
  rewrite (IHsub l eq_refl). exact IHrest.
Qed.

Lemma filterOut_absent target F :
  search target F = None -> filterOut target F = F.
Proof.
  induction F as [|it rest IHsub IHrest] using forest_ind; [reflexivity|].
  simpl. rewrite search_entry_eq.
  destruct (Z.eqb_spec (id it) target) as [E|NE]; [discriminate|].
  rewrite filterOut_kept_eq.
  destruct it as [i n e ic [l|]]; simpl in *.
  - destruct (search target l) eqn:Hl; [discriminate|].
    intros H. rewrite (IHsub l eq_refl Hl), (IHrest H). reflexivity.
  - intros H. rewrite (IHrest H). reflexivity.
Qed.

Lemma views_under target F :
  forall path, existsb (Z.eqb target) path = true ->
  filter (outside target) (List.map forget_kids (views path F)) = [].
Proof.
  induction F as [|it rest IHsub IHrest] using forest_ind; intros path Hp;
    [reflexivity|].
  rewrite views_cons. simpl List.map. rewrite map_app. simpl filter.
  rewrite filter_app.
  assert (Hit : outside target (forget_kids (view_of path it)) = false).
  { unfold outside, under. simpl. rewrite existsb_app, Hp. reflexivity. }
  rewrite Hit, (IHrest path Hp).
  destruct (submenu it) as [l|]; [|reflexivity].
  rewrite (IHsub l eq_refl); [reflexivity|].
  rewrite existsb_app, Hp. reflexivity.
Qed.

Lemma views_filterOut target F :
  forall path, existsb (Z.eqb target) path = false ->
  List.map forget_kids (views path (filterOut target F)) =
  filter (outside target) (List.map forget_kids (views path F)).
Proof.
  induction F as [|it rest IHsub IHrest] using forest_ind; intros path Hp;
    [reflexivity|].
  rewrite (views_cons path it rest). simpl List.map. rewrite map_app.
  simpl filter. rewrite filter_app.
  assert (Hit : outside target (forget_kids (view_of path it))
                = negb (id it =? target)).
  { unfold outside, under. simpl. rewrite existsb_app, Hp. simpl.
    rewrite Z.eqb_sym, orb_false_r. reflexivity. }
  rewrite Hit. simpl filterOut.
  destruct (Z.eqb_spec (id it) target) as [E|NE]; simpl negb; cbv iota.
  - rewrite (IHrest path Hp).
    destruct (submenu it) as [l|]; [|reflexivity].
    rewrite (views_under target l (path ++ [id it])); [reflexivity|].
    rewrite existsb_app. simpl. rewrite E, Z.eqb_refl, orb_true_r. reflexivity.
  - rewrite views_cons, filterOut_kept_eq. simpl List.map. rewrite map_app.
    rewrite (IHrest path Hp). f_equal.
    + unfold forget_kids, view_of. simpl.
      destruct (submenu it); reflexivity.
    + f_equal. simpl. destruct (submenu it) as [l|]; [|reflexivity].
      simpl. apply (IHsub l eq_refl).
      rewrite existsb_app, Hp. simpl.
      destruct (Z.eqb_spec target (id it)); [congruence|reflexivity].
Qed.

(** C1: after a confirmed [deleteItem target], [findById target] finds
    nothing; the entries that remain are exactly those that neither have the
    id nor lie below an entry that has it, with their fields, at their
    places and in their order; and when no entry has the id, the forest is
    left as it was. *)
Theorem deleteItem_removes_only_target :
  forall (target : Z) (p : Page),
    let F' := menuData (deleteItem true target p) in
    findById target F' = None
    /\ List.map forget_kids (views [] F') =
       filter (outside target) (List.map forget_kids (views [] (menuData p)))
    /\ (findById target (menuData p) = None -> F' = menuData p).
Proof.
  intros target p. simpl. split; [apply search_filterOut|]. split.
  - apply views_filterOut. reflexivity.
  - apply filterOut_absent.
Qed.

Lemma deleteItem_removes_only_target_witness :
  let F := [mkEntry 1 (lit "Home") (lit "/") None
              (Some [mkEntry 2 (lit "A") (lit "/a") None None]);
            mkEntry 3 (lit "B") (lit "/b") None None] in
  findById 7 F = None /\
  menuData (deleteItem true 7 (mkPage F [])) = F.
Proof.
  split; [reflexivity|].
  apply (deleteItem_removes_only_target 7
           (mkPage [mkEntry 1 (lit "Home") (lit "/") None
                      (Some [mkEntry 2 (lit "A") (lit "/a") None None]);
                    mkEntry 3 (lit "B") (lit "/b") None None] [])).
  reflexivity.
Defined.

(** When the confirmation is declined, nothing happens. *)
Lemma deleteItem_declined target p : deleteItem false target p = p.
Proof. reflexivity. Qed.

(** ** nextId and findById *)

(** C3: [nextId] is said to return the largest id of the forest plus one.
    On the seed [{id: -5}] the largest id is -5 and the code returns 1, not
    -4: the scan starts from [max = 0] and skips every id that is not above
    it.  On the seed [{id: 2^53}] the code returns 2^53 again, the rounded
    sum.  The empty forest gives 1 as said. *)
Theorem nextId_misses_largest_plus_one :
  let low := [mkEntry (-5) (lit "Home") (lit "/") None None] in
  let high := [mkEntry (2 ^ 53) (lit "Home") (lit "/") None None] in
  all_ids low = [-5] /\ nextId low = 1
  /\ all_ids high = [2 ^ 53] /\ nextId high = 2 ^ 53
  /\ nextId [] = 1.
Proof. repeat split; reflexivity. Qed.

(** C4: the id that [nextId] gives is said to be the id of no entry.  On
    the seed [{id: 2^53}] the code gives 2^53, and [findById] finds the
    entry of the seed under it. *)
Theorem findById_nextId_finds_old_entry :
  let old := mkEntry (2 ^ 53) (lit "Home") (lit "/") None None in
  nextId [old] = 2 ^ 53
  /\ findById (nextId [old]) [old] = Some old.
Proof. split; reflexivity. Qed.

(** ** validateUrl *)

Lemma matches_plus_dot s :
  matches (Plus Dot) s (fun _ => true) =
  match s with
  | c :: _ => negb (is_line_terminator c)
  | [] => false
  end.
Proof.
  destruct s as [|c s]; [reflexivity|].
  simpl. destruct (is_line_terminator c); simpl; [reflexivity|].
  apply orb_true_r.
Qed.

Ltac eval_canonicalize :=
  repeat match goal with
    | |- context [canonicalize (Npos ?p)] =>
        let v := eval vm_compute in (canonicalize (Npos p)) in
        change (canonicalize (Npos p)) with v
    end.

Ltac split_tests :=
  repeat (cbn -[canonicalize N.eqb]; eval_canonicalize;
          match goal with
          | |- context [match ?u with [] => _ | _ :: _ => _ end] =>
              is_var u; destruct u
          | |- context [N.eqb (canonicalize ?c) ?n] =>
              is_var c; destruct (N.eqb (canonicalize c) n)
          end).

Lemma matches_scheme url (k : jsstring -> bool) :
  matches scheme url k =
  existsb
    (fun p =>
       match strip_prefix_ci p url with
       | Some rest => k rest
       | None => false
       end) prefixes.
Proof.
  unfold scheme, prefixes, chr, lit.
  split_tests;
    repeat match goal with
      | |- context [k ?r] => destruct (k r)
      end; reflexivity.
Qed.

Lemma validateUrl_eq url : validateUrl url = prefix_then_char url.
Proof.
  unfold validateUrl, test, pattern, prefix_then_char.
  change (matches (Seq scheme (Plus Dot)) url (fun _ => true))
    with (matches scheme url
            (fun s' => matches (Plus Dot) s' (fun _ => true))).
  rewrite matches_scheme.
  destruct url as [|c0 url]; [reflexivity|]. simpl negb. cbv iota.
  generalize (c0 :: url). intros u. induction prefixes as [|p ps IH];
    [reflexivity|].
  cbn [existsb]. rewrite IH. f_equal.
  destruct (strip_prefix_ci p u) as [r|]; [|reflexivity].
  apply matches_plus_dot.
Qed.

(** C2: [validateUrl] is said to accept every non-empty string that begins
    with "/".  The string "/" is not empty and begins with "/", with nothing
    after the prefix, and the code rejects it: the pattern ends in [.+] and
    asks for one more character. *)
Theorem validateUrl_rejects_slash_alone :
  lit "/" <> []
  /\ strip_prefix_ci (lit "/") (lit "/") = Some []
  /\ validateUrl (lit "/") = false.
Proof. split; [discriminate|split; reflexivity]. Qed.

(** ** Mutation of the object that a search returned *)

Lemma or_empty_id s : or_empty s = s.
Proof. destruct s; reflexivity. Qed.

Lemma search_app target F G :
  search target (F ++ G) =
  match search target F with
  | Some r => Some r
  | None => search target G
  end.
Proof.
  induction F as [|it rest IH]; [reflexivity|].
  simpl. destruct (search_entry target it); [reflexivity|exact IH].
Qed.

Lemma mutate_absent target f F :
  search target F = None -> mutate target f F = None.
Proof.
  induction F as [|it rest IHsub IHrest] using forest_ind; [reflexivity|].
  simpl. rewrite search_entry_eq, mutate_entry_eq.
  destruct (id it =? target); [discriminate|].
  destruct (submenu it) as [l|].
  - destruct (search target l) eqn:Hl; [discriminate|].
    rewrite (IHsub l eq_refl Hl). simpl.
    intros H. rewrite (IHrest H). reflexivity.
  - intros H. rewrite (IHrest H). reflexivity.
Qed.

(** The object found is replaced by its mutated version, and a search for
    the same id then returns that version. *)
Lemma mutate_found target f F e :
  (forall x, id (f x) = id x) ->
  search target F = Some e ->
  exists F', mutate target f F = Some F' /\ search target F' = Some (f e).
Proof.
  intros Hid.
  induction F as [|it rest IHsub IHrest] using forest_ind; [discriminate|].
  simpl. rewrite search_entry_eq, mutate_entry_eq.
  destruct (Z.eqb_spec (id it) target) as [E|NE].
  { intros [= <-]. eexists. split; [reflexivity|].
    simpl. rewrite search_entry_eq, Hid.
    destruct (Z.eqb_spec (id it) target); [reflexivity|contradiction]. }
  assert (Hit : forall rest', search target rest' = Some (f e) ->
                match submenu it with
                | Some l => search target l
                | None => None
                end = None ->
                search target (it :: rest') = Some (f e)).
  { intros rest' Hs Hn. simpl. rewrite search_entry_eq.
    destruct (Z.eqb_spec (id it) target); [contradiction|].
    rewrite Hn. exact Hs. }
  destruct (submenu it) as [l|] eqn:Hsm.
  - destruct (search target l) as [r|] eqn:Hl.
    + intros [= <-]. destruct (IHsub l eq_refl Hl) as (l' & Hm & Hs).
      rewrite Hm. simpl. eexists. split; [reflexivity|].
      cbn [search]. rewrite search_entry_eq. simpl.
      destruct (Z.eqb_spec (id it) target); [contradiction|].
      rewrite Hs. reflexivity.
    + rewrite (mutate_absent target f l Hl). simpl. intros H.
      destruct (IHrest H) as (rest' & Hm & Hs). rewrite Hm.
      eexists. split; [reflexivity|]. apply Hit; [exact Hs|reflexivity].
  - intros H. destruct (IHrest H) as (rest' & Hm & Hs). rewrite Hm.
    eexists. split; [reflexivity|]. apply Hit; [exact Hs|reflexivity].
Qed.

Lemma search_assign target f F e :
  (forall x, id (f x) = id x) ->
  search target F = Some e ->
  search target (assign target f F) = Some (f e).
Proof.
  intros Hid H. unfold assign.
  destruct (mutate_found target f F e Hid H) as (F' & -> & Hs). exact Hs.
Qed.

(** A mutation that keeps the id and the submenu of the object changes one
    view of the forest and nothing else. *)
Lemma mutate_views target f F e :
  (forall x, id (f x) = id x) ->
  (forall x, submenu (f x) = submenu x) ->
  search target F = Some e ->
  forall path, exists F' pre post q,
    mutate target f F = Some F'
    /\ List.length F' = List.length F
    /\ views path F = pre ++ view_of q e :: post
    /\ views path F' = pre ++ view_of q (f e) :: post.
Proof.
  intros Hid Hsub.
  induction F as [|it rest IHsub IHrest] using forest_ind; [discriminate|].
  simpl search. rewrite search_entry_eq. simpl mutate.
  rewrite mutate_entry_eq.
  destruct (Z.eqb_spec (id it) target) as [E|NE].
  { intros [= <-] path. exists (f it :: rest), [], 
      (match submenu it with
       | Some l => views (path ++ [id it]) l
       | None => []
       end ++ views path rest), path.
    split; [reflexivity|]. split; [reflexivity|].
    rewrite !views_cons, Hid, Hsub. split; reflexivity. }
  destruct (submenu it) as [l|] eqn:Hl.
  - destruct (search target l) as [r|] eqn:Hs.
    + intros [= <-] path.
      destruct (IHsub l eq_refl Hs (path ++ [id it]))
        as (l' & pre & post & q & Hm & Hlen & Hv & Hv').
      rewrite Hm. cbn [option_map].
      eexists. exists (view_of path it :: pre), (post ++ views path rest), q.
      split; [reflexivity|]. split; [reflexivity|].
      rewrite !views_cons. simpl submenu. simpl id. rewrite Hl, Hv, Hv'.
      split.
      * simpl. rewrite <- app_assoc. reflexivity.
      * match goal with
        | |- ?v :: _ = _ => assert (Hview : v = view_of path it)
        end.
        { unfold view_of. simpl. rewrite Hl, Hlen. reflexivity. }
        rewrite Hview. simpl. rewrite <- app_assoc. reflexivity.
    + rewrite (mutate_absent target f l Hs). cbn [option_map]. intros H path.
      destruct (IHrest H path)
        as (rest' & pre & post & q & Hm & Hlen & Hv & Hv').
      rewrite Hm.
      eexists. exists (view_of path it :: views (path ++ [id it]) l ++ pre),
        post, q.
      split; [reflexivity|]. split; [simpl; congruence|].
      rewrite !views_cons, Hl, Hv, Hv'.
      split; simpl; rewrite <- app_assoc; reflexivity.
  - intros H path.
    destruct (IHrest H path)
      as (rest' & pre & post & q & Hm & Hlen & Hv & Hv').
    rewrite Hm.
    eexists. exists (view_of path it :: pre), post, q.
    split; [reflexivity|]. split; [simpl; congruence|].
    rewrite !views_cons, Hl, Hv, Hv'.
    split; reflexivity.
Qed.

(** ** The submit handler *)

Lemma accepted_tests form :
  accepted form ->
  truthy_string (trim (nombreInput form)) = true /\
  validateUrl (trim (enlaceInput form)) = true.
Proof.
  intros [Hn Hu]. split; [|exact Hu].
  destruct (trim (nombreInput form)); [contradiction|reflexivity].
Qed.

Lemma newItem_created form F :
  newItem (nextId F) (trim (nombreInput form)) (trim (enlaceInput form))
    (trim (iconoInput form)) = created form F.
Proof. unfold newItem, created. rewrite or_empty_id. reflexivity. Qed.

(** The create branch, once the validations have passed. *)
Lemma submit_create form p :
  accepted form ->
  truthy (editingIdInput form) = None ->
  let F := menuData p in
  let e := created form F in
  let inserted :=
    match truthy (parentIdInput form) with
    | Some parentId =>
        match findById parentId F with
        | None =>
            mkPage (F ++ [e])
              (effects p ++ [ShowMessage MsgParentNoEncontrado false])
        | Some _ => mkPage (assign parentId (push_submenu e) F) (effects p)
        end
    | None => mkPage (F ++ [e]) (effects p)
    end in
  submit form p =
  resetForm (renderMenu (saveToLocalStorage
    (showMessage MsgAnadida false inserted))).
Proof.
  intros Hacc Hed. destruct (accepted_tests form Hacc) as [Hn Hu].
  unfold submit. rewrite Hn, Hu, Hed. cbn [negb]. cbv iota.
  rewrite newItem_created.
  destruct (truthy (parentIdInput form)) as [pid|]; [|reflexivity].
  destruct (findById pid (menuData p)); reflexivity.
Qed.

(** The edit branch, once the validations have passed. *)
Lemma submit_edit form p eid :
  accepted form ->
  editingIdInput form = Some eid -> eid <> 0 ->
  let F := menuData p in
  let f := set_fields (trim (nombreInput form)) (trim (enlaceInput form))
             (trim (iconoInput form)) in
  submit form p =
  match findById eid F with
  | None => showMessage MsgEditarNoEncontrado true p
  | Some _ =>
      resetForm (renderMenu (saveToLocalStorage
        (showMessage MsgActualizado false
           (mkPage (assign eid f F) (effects p)))))
  end.
Proof.
  intros Hacc Hed Hz. destruct (accepted_tests form Hacc) as [Hn Hu].
  unfold submit. rewrite Hn, Hu, Hed. cbn [negb truthy]. cbv iota.
  destruct (Z.eqb_spec eid 0) as [E|_]; [contradiction|].
  destruct (findById eid (menuData p)); reflexivity.
Qed.

(** C7: when the label is empty once trimmed, or the href does not pass
    [validateUrl], the submit handler shows an error and stops: the forest
    is the one it was, nothing is saved or rendered, whether the form was
    creating or editing. *)
Theorem submit_rejected_leaves_forest :
  forall (form : Form) (p : Page),
    trim (nombreInput form) = [] \/
    validateUrl (trim (enlaceInput form)) = false ->
    menuData (submit form p) = menuData p
    /\ exists msg, effects (submit form p) = effects p ++ [ShowMessage msg true].
Proof.
  intros form p H. unfold submit.
  destruct (truthy_string (trim (nombreInput form))) eqn:Hn; cbn [negb].
  - destruct H as [H|H]; [rewrite H in Hn; discriminate|].
    rewrite H. cbn [negb]. split; [reflexivity|].
    exists MsgEnlaceInvalido. reflexivity.
  - split; [reflexivity|]. exists MsgNombreObligatorio. reflexivity.
Qed.

Lemma submit_rejected_leaves_forest_witness :
  let F := [mkEntry 1 (lit "Home") (lit "/") None None] in
  menuData (submit (mkForm (Some 1) (lit "  ") (lit "/a") (lit "") None)
              (mkPage F [])) = F
  /\ menuData (submit (mkForm None (lit "About") (lit "ftp://x") (lit "") None)
                 (mkPage F [])) = F.
Proof.
  split.
  - apply (submit_rejected_leaves_forest
             (mkForm (Some 1) (lit "  ") (lit "/a") (lit "") None)
             (mkPage [mkEntry 1 (lit "Home") (lit "/") None None] [])).
    left. reflexivity.
  - apply (submit_rejected_leaves_forest
             (mkForm None (lit "About") (lit "ftp://x") (lit "") None)
             (mkPage [mkEntry 1 (lit "Home") (lit "/") None None] [])).
    right. reflexivity.
Defined.

(** C5: a parent id that [findById] resolves is said to make the new entry
    the last child of that parent, and one that does not resolve to bring a
    warning.  With an entry of id 0 in the forest and 0 as parent id,
    [findById] resolves 0, and the code appends the new entry to the root
    array: the entry of id 0 stays without submenu.  With the parent id 5,
    which does not resolve, the code shows the warning and overwrites it at
    once: when the handler returns the box holds the message of the added
    option. *)
Theorem submit_parent_zero_appends_to_root :
  let zero := mkEntry 0 (lit "Home") (lit "/") None None in
  let about := mkEntry 1 (lit "About") (lit "/about") (Some []) None in
  let form := mkForm None (lit "About") (lit "/about") (lit "") (Some 0) in
  let form5 := mkForm None (lit "About") (lit "/about") (lit "") (Some 5) in
  let p := mkPage [zero] [] in
  findById 0 [zero] = Some zero
  /\ menuData (submit form p) = [zero; about]
  /\ findById 0 (menuData (submit form p)) = Some zero
  /\ findById 5 [zero] = None
  /\ effects (submit form5 p) =
     [ShowMessage MsgParentNoEncontrado false; ShowMessage MsgAnadida false;
      SaveToLocalStorage [zero; about]; RenderMenu [zero; about]; ResetForm]
  /\ messageBox (effects (submit form5 p)) = Some (MsgAnadida, false).
Proof. repeat split; reflexivity. Qed.

(** C10: on the create path a parent id of 0 is handled as an empty parent
    field: the handler does what it does without a parent id, the new entry
    is appended to the root array, and the only message is the one for the
    added option, also when an entry with id 0 exists. *)
Theorem submit_parent_zero_is_root :
  forall (form : Form) (p : Page),
    accepted form ->
    truthy (editingIdInput form) = None ->
    parentIdInput form = Some 0 ->
    let F' := menuData p ++ [created form (menuData p)] in
    submit form p = submit (with_parent None form) p
    /\ menuData (submit form p) = F'
    /\ effects (submit form p) =
       effects p ++ [ShowMessage MsgAnadida false; SaveToLocalStorage F';
                     RenderMenu F'; ResetForm].
Proof.
  intros form p Hacc Hed Hpar F'.
  assert (Hs : submit form p = _) by apply (submit_create form p Hacc Hed).
  assert (Hs0 : submit (with_parent None form) p = _)
    by apply (submit_create (with_parent None form) p Hacc Hed).
  cbv zeta in Hs, Hs0. rewrite Hpar in Hs. cbn [truthy Z.eqb] in Hs.
  cbn [with_parent parentIdInput truthy] in Hs0.
  split; [rewrite Hs, Hs0; reflexivity|].
  rewrite Hs. split; [reflexivity|].
  simpl. rewrite <- !app_assoc. reflexivity.
Qed.

Lemma submit_parent_zero_is_root_witness :
  let zero := mkEntry 0 (lit "Home") (lit "/") None None in
  let form := mkForm None (lit "About") (lit "/about") (lit "") (Some 0) in
  menuData (submit form (mkPage [zero] [])) = [zero; created form [zero]].
Proof.
  refine (proj1 (proj2 (submit_parent_zero_is_root
            (mkForm None (lit "About") (lit "/about") (lit "") (Some 0))
            (mkPage [mkEntry 0 (lit "Home") (lit "/") None None] [])
            _ eq_refl eq_refl))).
  split; [discriminate|reflexivity].
Defined.

(** C9: on the create path the entry that the handler inserts has no
    submenu, wherever it goes.  It is the last entry of the root array, or,
    when the parent id resolves, the last entry of the submenu of the parent
    found afterwards; in both places it is the entry made from the form,
    which has no submenu. *)
Theorem submit_created_has_no_children :
  forall (form : Form) (p : Page),
    accepted form ->
    truthy (editingIdInput form) = None ->
    let F := menuData p in
    let F' := menuData (submit form p) in
    exists e,
      e = created form F
      /\ submenu e = None
      /\ (F' = F ++ [e]
          \/ exists parentId parent parent',
               truthy (parentIdInput form) = Some parentId
               /\ findById parentId F = Some parent
               /\ findById parentId F' = Some parent'
               /\ submenu parent' =
                  Some (match submenu parent with
                        | Some l => l
                        | None => []
                        end ++ [e])).
Proof.
  intros form p Hacc Hed F F'.
  pose proof (submit_create form p Hacc Hed) as Hs. cbv zeta in Hs.
  subst F F'. rewrite Hs. clear Hs.
  exists (created form (menuData p)).
  split; [reflexivity|]. split; [reflexivity|].
  destruct (truthy (parentIdInput form)) as [parentId|];
    [|left; reflexivity].
  destruct (findById parentId (menuData p)) as [parent|] eqn:Hfind;
    [|left; reflexivity].
  right.
  exists parentId, parent, (push_submenu (created form (menuData p)) parent).
  split; [reflexivity|]. split; [exact Hfind|]. split; [|reflexivity].
  cbn [menuData resetForm renderMenu saveToLocalStorage showMessage].
  apply search_assign; [reflexivity|exact Hfind].
Qed.

Lemma submit_created_has_no_children_witness :
  let home := mkEntry 1 (lit "Home") (lit "/") None None in
  let form := mkForm None (lit "About") (lit "/about") (lit "") (Some 1) in
  let F' := menuData (submit form (mkPage [home] [])) in
  exists e,
    e = created form [home]
    /\ submenu e = None
    /\ (F' = [home] ++ [e]
        \/ exists parentId parent parent',
             truthy (Some 1) = Some parentId
             /\ findById parentId [home] = Some parent
             /\ findById parentId F' = Some parent'
             /\ submenu parent' =
                Some (match submenu parent with
                      | Some l => l
                      | None => []
                      end ++ [e])).
Proof.
  refine (submit_created_has_no_children
            (mkForm None (lit "About") (lit "/about") (lit "") (Some 1))
            (mkPage [mkEntry 1 (lit "Home") (lit "/") None None] [])
            _ eq_refl).
  split; [discriminate|reflexivity].
Defined.

(** C6: an editing id that [findById] resolves is said to have the fields
    of its entry overwritten.  With an entry of id 0 in the forest and 0 as
    editing id, [findById] resolves 0, and the code takes the create branch:
    the entry of id 0 keeps its fields and a new entry with the fields of
    the form is appended to the root array. *)
Theorem submit_edit_zero_appends_copy :
  let zero := mkEntry 0 (lit "Home") (lit "/") None None in
  let start := mkEntry 1 (lit "Start") (lit "/start") (Some []) None in
  let form := mkForm (Some 0) (lit "Start") (lit "/start") (lit "") None in
  let p := mkPage [zero] [] in
  findById 0 [zero] = Some zero
  /\ menuData (submit form p) = [zero; start]
  /\ findById 0 (menuData (submit form p)) = Some zero.
Proof. repeat split; reflexivity. Qed.

(** ** JSON strings: what is quoted is read back *)

Section Json_strings.
Local Open Scope N_scope.
Import JSON.

Lemma hex_value_digit n : n < 16 -> hex_value (hex_digit n) = Some n.
Proof.
  intros H. remember (N.to_nat n) as m eqn:Em.
  assert (En : n = N.of_nat m) by lia.
  assert (Hm : (m < 16)%nat) by lia.
  rewrite En. clear - Hm.
  do 16 (destruct m as [|m]; [reflexivity|]). lia.
Qed.

Lemma hex_digits_value c :
  c < 65536 ->
  (c / 4096 mod 16) * 4096 + (c / 256 mod 16) * 256
  + (c / 16 mod 16) * 16 + c mod 16 = c.
Proof.
  intros H.
  pose proof (N.div_mod c 16 ltac:(discriminate)).
  pose proof (N.div_mod (c / 16) 16 ltac:(discriminate)).
  pose proof (N.div_mod (c / 256) 16 ltac:(discriminate)).
  assert (E1 : c / 256 = c / 16 / 16) by (rewrite N.Div0.div_div; reflexivity).
  assert (E2 : c / 4096 = c / 256 / 16) by (rewrite N.Div0.div_div; reflexivity).
  assert (c / 4096 < 16) by (apply N.Div0.div_lt_upper_bound; exact H).
  rewrite (N.mod_small (c / 4096) 16) by assumption.
  rewrite E2 in *. rewrite E1 in *. lia.
Qed.

Lemma parse_unicode_escape c text :
  c < 65536 ->
  parse_string_body (unicode_escape c ++ text) =
  prepend c (parse_string_body text).
Proof.
  intros H. unfold unicode_escape.
  cbn [app parse_string_body N.eqb Pos.eqb].
  rewrite !hex_value_digit by (apply N.mod_lt; discriminate).
  rewrite hex_digits_value by exact H. reflexivity.
Qed.

(** A character that is written as it is. *)
Lemma parse_plain c text :
  c <> 34 -> c <> 92 -> 32 <= c ->
  parse_string_body (c :: text) = prepend c (parse_string_body text).
Proof.
  intros H1 H2 H3. cbn [parse_string_body].
  destruct (N.eqb_spec c 34); [contradiction|].
  destruct (N.eqb_spec c 92); [contradiction|].
  destruct (N.ltb_spec c 32); [lia|]. reflexivity.
Qed.

Lemma parse_quote_unit c text :
  parse_string_body (quote_unit c ++ text) =
  prepend c (parse_string_body text).
Proof.
  unfold quote_unit.
  repeat match goal with
    | |- context [N.eqb c ?k] =>
        destruct (N.eqb_spec c k) as [->|?]; [reflexivity|]
    end.
  destruct (N.ltb_spec c 32).
  - apply parse_unicode_escape. lia.
  - apply parse_plain; assumption.
Qed.

Lemma parse_quote_body_bounded n :
  forall s rest, (List.length s <= n)%nat ->
  parse_string_body (quote_body s ++ 34 :: rest) = Some (s, rest).
Proof.
  induction n as [|n IH]; intros s rest Hlen.
  - destruct s; [reflexivity|simpl in Hlen; lia].
  - destruct s as [|c s]; [reflexivity|]. simpl in Hlen.
    cbn [quote_body].
    destruct (is_leading_surrogate c) eqn:Hlead.
    + unfold is_leading_surrogate in Hlead.
      apply andb_prop in Hlead. destruct Hlead as [Hlo Hhi].
      apply N.leb_le in Hlo. apply N.leb_le in Hhi.
      destruct s as [|d s'].
      * rewrite parse_unicode_escape by lia. reflexivity.
      * destruct (is_trailing_surrogate d) eqn:Htrail.
        -- unfold is_trailing_surrogate in Htrail.
           apply andb_prop in Htrail. destruct Htrail as [Hlo' Hhi'].
           apply N.leb_le in Hlo'. apply N.leb_le in Hhi'.
           cbn [app]. rewrite !parse_plain by lia.
           rewrite IH by (simpl in Hlen; lia). reflexivity.
        -- rewrite <- app_assoc, parse_unicode_escape by lia.
           rewrite IH by lia. reflexivity.
    + destruct (is_trailing_surrogate c) eqn:Htrail.
      * unfold is_trailing_surrogate in Htrail.
        apply andb_prop in Htrail. destruct Htrail as [Hlo' Hhi'].
        apply N.leb_le in Hlo'. apply N.leb_le in Hhi'.
        rewrite <- app_assoc, parse_unicode_escape by lia.
        rewrite IH by lia. reflexivity.
      * rewrite <- app_assoc, parse_quote_unit.
        rewrite IH by lia. reflexivity.
Qed.

Lemma parse_quote_body s rest :
  parse_string_body (quote_body s ++ 34 :: rest) = Some (s, rest).
Proof. apply (parse_quote_body_bounded (List.length s)). apply le_n. Qed.

End Json_strings.

(** ** JSON numbers: what is written is read back *)

Section Json_numbers.
Local Open Scope N_scope.
Import JSON.

Lemma parse_digits_digits u rest :
  delimited rest -> parse_digits (digits u ++ rest) = (u, rest).
Proof.
  intros Hrest.
  induction u; cbn [digits app parse_digits];
    try (cbn [digit_of N.eqb Pos.eqb]; rewrite IHu; reflexivity).
  destruct rest as [|c rest]; [reflexivity|].
  cbn [parse_digits]. destruct Hrest as [-> | ->]; reflexivity.
Qed.

Lemma continues_number_delimited rest :
  delimited rest -> continues_number rest = false.
Proof.
  destruct rest as [|c rest]; [reflexivity|].
  intros [-> | ->]; reflexivity.
Qed.

(** The digits of a positive number do not begin with 0. *)
Lemma to_uint_no_leading_zero p u : Pos.to_uint p <> Decimal.D0 u.
Proof.
  intros E.
  assert (Hnorm : Decimal.unorm (Pos.to_uint p) = Pos.to_uint p).
  { change (Pos.to_uint p) with (N.to_uint (Npos p)) at 2.
    rewrite <- (DecimalPos.Unsigned.of_to p).
    symmetry. apply DecimalPos.Unsigned.to_of. }
  rewrite E, DecimalFacts.unorm_D0 in Hnorm.
  assert (Hu : u = Decimal.Nil \/ u <> Decimal.Nil)
    by (destruct u; (left; reflexivity) || (right; discriminate)).
  destruct Hu as [-> | Hu].
  - apply (DecimalPos.Unsigned.to_uint_nonzero p). exact E.
  - pose proof (DecimalFacts.nb_digits_unorm u Hu) as Hle.
    rewrite Hnorm in Hle. simpl in Hle. lia.
Qed.

Lemma digits_first_digit u rest :
  u <> Decimal.Nil ->
  exists c text, digits u ++ rest = c :: text /\ 48 <= c <= 57.
Proof.
  intros Hu. destruct u; [contradiction| | | | | | | | | |];
    cbn [digits app]; eexists; eexists; (split; [reflexivity|lia]).
Qed.

Lemma parse_number_digits (negative : bool) u rest :
  delimited rest ->
  u <> Decimal.Nil ->
  (forall u', u = Decimal.D0 u' -> u' = Decimal.Nil) ->
  parse_number ((if negative then [45] else []) ++ digits u ++ rest) =
  Some (JNumber (Z.of_int (if negative then Decimal.Neg u
                           else Decimal.Pos u)), rest).
Proof.
  intros Hrest Hnil Hlead. unfold parse_number.
  assert (Hsign :
            match (if negative then [45] else []) ++ digits u ++ rest with
            | c :: text => if c =? 45 then (true, text)
                           else (false, c :: text)
            | [] => (false, [])
            end = (negative, digits u ++ rest)).
  { destruct negative; [reflexivity|].
    destruct (digits_first_digit u rest Hnil) as (c & text & Htext & Hc).
    cbn [app]. rewrite Htext.
    destruct (N.eqb_spec c 45); [lia|reflexivity]. }
  match goal with
  | |- (let (_, _) := ?m in _) = _ => replace m with (negative, digits u ++ rest)
  end.
  2:{ rewrite <- Hsign.
      destruct ((if negative then [45] else []) ++ digits u ++ rest);
        reflexivity. }
  rewrite (parse_digits_digits u rest Hrest).
  rewrite (continues_number_delimited rest Hrest).
  destruct u as [|u|u|u|u|u|u|u|u|u|u]; try reflexivity; [contradiction|].
  rewrite (Hlead u eq_refl). reflexivity.
Qed.

Lemma parse_number_to_string z rest :
  delimited rest ->
  parse_number (number_to_string z ++ rest) = Some (JNumber z, rest).
Proof.
  intros Hrest. unfold number_to_string.
  pose proof (DecimalZ.of_to z) as Hz.
  destruct z as [|p|p]; cbn [Z.to_int] in *.
  - apply (parse_number_digits false Decimal.zero rest Hrest);
      [discriminate|]. intros u' [= <-]. reflexivity.
  - etransitivity;
      [apply (parse_number_digits false (Pos.to_uint p) rest Hrest)|].
    + apply DecimalPos.Unsigned.to_uint_nonnil.
    + intros u' E. exfalso. apply (to_uint_no_leading_zero p u' E).
    + rewrite Hz. reflexivity.
  - etransitivity;
      [apply (parse_number_digits true (Pos.to_uint p) rest Hrest)|].
    + apply DecimalPos.Unsigned.to_uint_nonnil.
    + intros u' E. exfalso. apply (to_uint_no_leading_zero p u' E).
    + rewrite Hz. reflexivity.
Qed.

End Json_numbers.

(** ** JSON values: what is serialized is parsed back *)

Section Json_values.
Local Open Scope N_scope.
Import JSON.

Lemma skip_ws_spaces ws s : all_space ws -> skip_ws (ws ++ s) = skip_ws s.
Proof.
  induction 1 as [|c ws Hc _ IH]; [reflexivity|].
  cbn [app skip_ws]. rewrite Hc. exact IH.
Qed.

Lemma skip_ws_head c s : is_json_space c = false -> skip_ws (c :: s) = c :: s.
Proof. intros H. cbn [skip_ws]. rewrite H. reflexivity. Qed.

Lemma parse_value_spaces fuel ws s :
  all_space ws -> parse_value fuel (ws ++ s) = parse_value fuel s.
Proof.
  intros H. destruct fuel; [reflexivity|].
  cbn [parse_value]. rewrite (skip_ws_spaces ws s H). reflexivity.
Qed.

Lemma parse_elements_spaces fuel ws s :
  all_space ws -> parse_elements fuel (ws ++ s) = parse_elements fuel s.
Proof.
  intros H. destruct fuel; [reflexivity|].
  cbn [parse_elements]. rewrite (parse_value_spaces fuel ws s H). reflexivity.
Qed.

Lemma parse_members_spaces fuel ws s :
  all_space ws -> parse_members fuel (ws ++ s) = parse_members fuel s.
Proof.
  intros H. destruct fuel; [reflexivity|].
  cbn [parse_members]. rewrite (skip_ws_spaces ws s H). reflexivity.
Qed.

Lemma all_space_gap indent : all_space indent -> all_space (indent ++ gap).
Proof.
  intros H. apply Forall_app. split; [exact H|].
  repeat constructor.
Qed.

Lemma all_space_newline indent : all_space indent -> all_space (10 :: indent).
Proof. intros H. constructor; [reflexivity|exact H]. Qed.

Lemma serialize_head indent v rest :
  exists c text, serialize indent v ++ rest = c :: text /\ opener c.
Proof.
  unfold opener.
  destruct v as [|[|]|z|s|[|x l]|[|kv m]]; cbn [serialize]; cbv zeta;
    cbn [app lit List.map list_ascii_of_string];
    try (eexists; eexists; split; [reflexivity|]; cbn; lia).
  unfold number_to_string.
  destruct (Z.to_int z) as [u|u] eqn:Hz.
  - assert (Hu : u <> Decimal.Nil).
    { destruct z; cbn in Hz; try discriminate Hz; injection Hz as <-;
        try discriminate; apply DecimalPos.Unsigned.to_uint_nonnil. }
    destruct (digits_first_digit u rest Hu) as (c & text & Htext & Hc).
    exists c, text. split; [exact Htext|]. lia.
  - eexists; eexists; split; [reflexivity|]. lia.
Qed.


Lemma number_head z rest :
  exists c text,
    number_to_string z ++ rest = c :: text /\ (c = 45 \/ 48 <= c <= 57).
Proof.
  unfold number_to_string.
  destruct (Z.to_int z) as [u|u] eqn:Hz.
  - assert (Hu : u <> Decimal.Nil).
    { destruct z; cbn in Hz; try discriminate Hz; injection Hz as <-;
        try discriminate; apply DecimalPos.Unsigned.to_uint_nonnil. }
    destruct (digits_first_digit u rest Hu) as (c & text & Htext & Hc).
    exists c, text. split; [exact Htext|]. right. exact Hc.
  - eexists; eexists; split; [reflexivity|]. left. reflexivity.
Qed.

Lemma opener_not_space c : opener c -> is_json_space c = false.
Proof.
  unfold opener, is_json_space. intros H.
  destruct (N.eqb_spec c 9); [lia|]. destruct (N.eqb_spec c 10); [lia|].
  destruct (N.eqb_spec c 13); [lia|]. destruct (N.eqb_spec c 32); [lia|].
  reflexivity.
Qed.

Lemma round_trips_number z : round_trips (JNumber z).
Proof.
  intros fuel indent rest Hfuel _ Hrest.
  destruct fuel as [|fuel]; [simpl in Hfuel; lia|].
  cbn [serialize].
  destruct (number_head z rest) as (c & text & Htext & Hc).
  rewrite Htext. cbn [parse_value].
  rewrite skip_ws_head
    by (apply opener_not_space; unfold opener; lia).
  destruct (N.eqb_spec c 123); [lia|]. destruct (N.eqb_spec c 91); [lia|].
  destruct (N.eqb_spec c 34); [lia|]. destruct (N.eqb_spec c 116); [lia|].
  destruct (N.eqb_spec c 102); [lia|]. destruct (N.eqb_spec c 110); [lia|].
  rewrite <- Htext. apply parse_number_to_string. exact Hrest.
Qed.

Lemma round_trips_string s : round_trips (JString s).
Proof.
  intros fuel indent rest Hfuel _ _.
  destruct fuel as [|fuel]; [simpl in Hfuel; lia|].
  cbn [serialize]. unfold quote. cbn [app parse_value skip_ws].
  cbn [is_json_space N.eqb Pos.eqb orb].
  rewrite <- app_assoc. cbn [app]. rewrite parse_quote_body. reflexivity.
Qed.

Lemma join_cons sep (x y : jsstring) parts :
  join sep (x :: y :: parts) = x ++ sep ++ join sep (y :: parts).
Proof. reflexivity. Qed.

Lemma parse_elements_join l :
  Forall round_trips l -> l <> [] ->
  forall (fuel : nat) (inner outer rest : jsstring),
    (list_sum (List.map (fun x => S (size x)) l) <= fuel)%nat ->
    all_space inner -> all_space outer ->
    parse_elements fuel
      (join ([44; 10] ++ inner) (List.map (serialize inner) l)
       ++ (10 :: outer) ++ 93 :: rest) = Some (l, rest).
Proof.
  induction l as [|x l IH]; intros HP Hne fuel inner outer rest Hfuel Hin Hout;
    [contradiction|].
  inversion HP as [|? ? Px Pl]; subst.
  destruct fuel as [|fuel]; [simpl in Hfuel; lia|].
  simpl in Hfuel.
  cbn [parse_elements].
  destruct l as [|y l].
  - cbn [List.map join].
    rewrite (Px fuel inner ((10 :: outer) ++ 93 :: rest));
      [|lia|exact Hin|right; reflexivity].
    cbv beta iota.
    rewrite skip_ws_spaces by (apply all_space_newline; exact Hout).
    reflexivity.
  - change (List.map (serialize inner) (x :: y :: l))
      with (serialize inner x :: List.map (serialize inner) (y :: l)).
    cbn [List.map]. rewrite join_cons. rewrite <- !app_assoc.
    cbn [app].
    match goal with
    | |- context [parse_value fuel (serialize inner x ++ ?R)] =>
        rewrite (Px fuel inner R); [|lia|exact Hin|left; reflexivity]
    end.
    cbv beta iota.
    rewrite skip_ws_head by reflexivity.
    cbn [N.eqb Pos.eqb].
    match goal with
    | |- context [parse_elements fuel (10 :: inner ++ ?R)] =>
        change (10 :: inner ++ R) with ((10 :: inner) ++ R);
        rewrite parse_elements_spaces
          by (apply all_space_newline; exact Hin)
    end.
    specialize (IH Pl ltac:(discriminate) fuel inner outer rest).
    cbn [List.map] in IH. cbn [app] in IH.
    rewrite IH; [reflexivity| |exact Hin|exact Hout].
    simpl. simpl in Hfuel. lia.
Qed.


Lemma define_property_fresh k v members :
  ~ In k (List.map fst members) ->
  define_property k v members = members ++ [(k, v)].
Proof.
  induction members as [|[k' v'] members IH]; intros Hk; [reflexivity|].
  cbn [define_property]. unfold jsstring_eqb.
  destruct (list_eq_dec N.eq_dec k' k) as [E|_].
  - exfalso. apply Hk. left. exact E.
  - cbn [app]. rewrite IH; [reflexivity|].
    intros Hin. apply Hk. right. exact Hin.
Qed.

Lemma define_properties_distinct members :
  forall acc,
    NoDup (List.map fst (acc ++ members)) ->
    fold_left (fun acc kv => define_property (fst kv) (snd kv) acc) members acc
    = acc ++ members.
Proof.
  induction members as [|[k v] members IH]; intros acc Hnd.
  - cbn. rewrite List.app_nil_r. reflexivity.
  - cbn [fold_left fst snd].
    assert (Hk : ~ In k (List.map fst acc)).
    { rewrite map_app in Hnd. cbn [List.map fst] in Hnd.
      apply NoDup_remove_2 in Hnd. intros Hin. apply Hnd.
      apply in_or_app. left. exact Hin. }
    rewrite (define_property_fresh k v acc Hk).
    rewrite IH; rewrite <- app_assoc; [reflexivity|exact Hnd].
Qed.

Lemma make_object_distinct members :
  NoDup (List.map fst members) -> make_object members = JObject members.
Proof.
  intros Hnd. unfold make_object.
  rewrite (define_properties_distinct members [] Hnd). reflexivity.
Qed.

Lemma parse_members_join m :
  Forall (fun kv => round_trips (snd kv)) m -> m <> [] ->
  forall (fuel : nat) (inner outer rest : jsstring),
    (list_sum (List.map (fun kv => S (size (snd kv))) m) <= fuel)%nat ->
    all_space inner -> all_space outer ->
    parse_members fuel
      (join ([44; 10] ++ inner) (List.map (member_text inner) m)
       ++ (10 :: outer) ++ 125 :: rest) = Some (m, rest).
Proof.
  induction m as [|[k v] m IH];
    intros HP Hne fuel inner outer rest Hfuel Hin Hout; [contradiction|].
  inversion HP as [|? ? Pv Pm]; subst. cbn [snd] in Pv.
  destruct fuel as [|fuel]; [simpl in Hfuel; lia|].
  simpl in Hfuel.
  assert (Hmember :
            forall R, delimited R ->
              parse_members (S fuel) (member_text inner (k, v) ++ R) =
              match skip_ws R with
              | [] => None
              | c :: r4 =>
                  if c =? 44 then
                    match parse_members fuel r4 with
                    | Some (ms, r5) => Some ((k, v) :: ms, r5)
                    | None => None
                    end
                  else if c =? 125 then Some ([(k, v)], r4)
                  else None
              end).
  { intros R HR. unfold member_text, quote. cbn [fst snd].
    rewrite <- !app_assoc. cbn [app parse_members].
    rewrite skip_ws_head by reflexivity. cbn [N.eqb Pos.eqb].
    rewrite <- !app_assoc. cbn [app].
    rewrite parse_quote_body. cbv beta iota.
    rewrite skip_ws_head by reflexivity. cbn [N.eqb Pos.eqb].
    match goal with
    | |- context [parse_value fuel (32 :: ?T)] =>
        change (32 :: T) with ([32] ++ T);
        rewrite parse_value_spaces by (repeat constructor)
    end.
    unfold round_trips in Pv.
    rewrite Pv; [reflexivity|lia|exact Hin|exact HR]. }
  destruct m as [|kv m].
  - cbn [List.map join].
    rewrite Hmember by (right; reflexivity).
    rewrite skip_ws_spaces by (apply all_space_newline; exact Hout).
    reflexivity.
  - cbn [List.map]. rewrite join_cons. rewrite <- !app_assoc.
    rewrite Hmember by (left; reflexivity).
    cbn [app]. rewrite skip_ws_head by reflexivity.
    cbn [N.eqb Pos.eqb].
    match goal with
    | |- context [parse_members fuel (10 :: inner ++ ?R)] =>
        change (10 :: inner ++ R) with ((10 :: inner) ++ R);
        rewrite parse_members_spaces
          by (apply all_space_newline; exact Hin)
    end.
    specialize (IH Pm ltac:(discriminate) fuel inner outer rest).
    cbn [app List.map] in IH.
    rewrite IH; [reflexivity| |exact Hin|exact Hout].
    simpl. simpl in Hfuel. lia.
Qed.

Lemma join_head (f : jsstring -> Prop) sep x parts rest :
  (forall text, exists c text', x ++ text = c :: text' /\ f [c]) ->
  exists c text', join sep (x :: parts) ++ rest = c :: text' /\ f [c].
Proof.
  intros H. destruct parts as [|y parts].
  - apply H.
  - rewrite join_cons, <- app_assoc. apply H.
Qed.

Lemma round_trips_all v : distinct_keys v -> round_trips v.
Proof.
  induction v as [| b | z | s | l IHl | m IHm] using value_induction;
    intros Hdk.
  - intros fuel indent rest Hfuel _ _.
    destruct fuel as [|fuel]; [simpl in Hfuel; lia|]. reflexivity.
  - intros fuel indent rest Hfuel _ _.
    destruct fuel as [|fuel]; [simpl in Hfuel; lia|].
    destruct b; reflexivity.
  - apply round_trips_number.
  - apply round_trips_string.
  - assert (Hl : Forall round_trips l).
    { inversion Hdk as [| | | |l' Hall|]; subst.
      rewrite Forall_forall in *. intros x Hx. apply IHl; [exact Hx|].
      apply Hall. exact Hx. }
    clear IHl Hdk.
    intros fuel indent rest Hfuel Hind _.
    destruct fuel as [|fuel]; [simpl in Hfuel; lia|].
    destruct l as [|x l]; [reflexivity|].
    cbn [serialize]. cbv zeta. set (inner := indent ++ gap).
    rewrite <- !app_assoc. cbn [app].
    assert (Hinner : all_space inner) by (apply all_space_gap; exact Hind).
    clearbody inner.
    cbn [parse_value]. rewrite skip_ws_head by reflexivity.
    cbn [N.eqb Pos.eqb].
    match goal with
    | |- context [parse_elements fuel (10 :: inner ++ ?R)] =>
        change (10 :: inner ++ R) with ((10 :: inner) ++ R);
        set (X := R)
    end.
    destruct (join_head (fun c => opener (hd 0 c)) (44 :: 10 :: inner)
                (serialize inner x) (List.map (serialize inner) l)
                (10 :: indent ++ 93 :: rest)) as (c & text & HX & Hc).
    { intros text. destruct (serialize_head inner x text) as (c & t & E & Hc).
      exists c, t. split; assumption. }
    change (X = c :: text) in HX. cbn [hd] in Hc.
    rewrite skip_ws_spaces by (apply all_space_newline; exact Hinner).
    rewrite HX at 1. rewrite skip_ws_head by (apply opener_not_space; exact Hc).
    destruct (N.eqb_spec c 93) as [E|_]; [unfold opener in Hc; lia|].
    rewrite parse_elements_spaces by (apply all_space_newline; exact Hinner).
    unfold X.
    pose proof (parse_elements_join (x :: l) Hl ltac:(discriminate)
                  fuel inner indent rest) as Hparse.
    match goal with
    | |- match ?t with _ => _ end = _ =>
        replace t with (Some (x :: l, rest)); [reflexivity|]
    end.
    symmetry. apply Hparse; [|exact Hinner|exact Hind].
    simpl in Hfuel. simpl. lia.
  - assert (Hm : Forall (fun kv => round_trips (snd kv)) m
                 /\ NoDup (List.map fst m)).
    { inversion Hdk as [| | | | |m' Hnd Hall]; subst. split; [|exact Hnd].
      rewrite Forall_forall in *. intros x Hx. apply IHm; [exact Hx|].
      apply Hall. exact Hx. }
    destruct Hm as [Hm Hnd]. clear IHm Hdk.
    intros fuel indent rest Hfuel Hind _.
    destruct fuel as [|fuel]; [simpl in Hfuel; lia|].
    destruct m as [|kv m]; [reflexivity|].
    cbn [serialize]. cbv zeta. set (inner := indent ++ gap).
    rewrite <- !app_assoc. cbn [app].
    assert (Hinner : all_space inner) by (apply all_space_gap; exact Hind).
    clearbody inner.
    cbn [parse_value]. rewrite skip_ws_head by reflexivity.
    cbn [N.eqb Pos.eqb].
    match goal with
    | |- context [parse_members fuel (10 :: inner ++ ?R)] =>
        change (10 :: inner ++ R) with ((10 :: inner) ++ R);
        set (X := R)
    end.
    destruct (join_head (fun c => hd 0 c = 34) (44 :: 10 :: inner)
                (member_text inner kv) (List.map (member_text inner) m)
                (10 :: indent ++ 125 :: rest)) as (c & text & HX & Hc).
    { intros text. eexists; eexists. split; reflexivity. }
    change (X = c :: text) in HX. cbn [hd] in Hc. subst c.
    rewrite skip_ws_spaces by (apply all_space_newline; exact Hinner).
    rewrite HX at 1. rewrite skip_ws_head by reflexivity.
    cbn [N.eqb Pos.eqb].
    rewrite parse_members_spaces by (apply all_space_newline; exact Hinner).
    unfold X.
    pose proof (parse_members_join (kv :: m) Hm ltac:(discriminate)
                  fuel inner indent rest) as Hparse.
    match goal with
    | |- match ?t with _ => _ end = _ =>
        replace t with (Some (kv :: m, rest))
    end.
    + rewrite (make_object_distinct (kv :: m) Hnd). reflexivity.
    + symmetry. apply Hparse; [|exact Hinner|exact Hind].
      simpl in Hfuel. simpl. lia.
Qed.

End Json_values.

(** ** The text is long enough for the parser *)

Section Json_size.
Import JSON.

Lemma join_length_sum (A : Type) (g : A -> nat) (f : A -> jsstring) sep l :
  (1 <= List.length sep)%nat ->
  Forall (fun a => (g a <= List.length (f a))%nat) l ->
  (list_sum (List.map (fun a => S (g a)) l)
   <= S (List.length (join sep (List.map f l))))%nat.
Proof.
  intros Hsep. induction 1 as [|x l Hx Hl IH]; [simpl; lia|].
  destruct l as [|y l].
  - simpl. lia.
  - cbn [List.map]. rewrite join_cons. cbn [List.map] in IH.
    rewrite !length_app. simpl list_sum. simpl list_sum in IH. lia.
Qed.

Lemma size_le_length v :
  forall indent, (size v <= List.length (serialize indent v))%nat.
Proof.
  induction v as [| b | z | s | l IHl | m IHm] using value_induction;
    intros indent.
  - simpl. lia.
  - destruct b; simpl; lia.
  - cbn [serialize size].
    destruct (number_head z []) as (c & text & E & _).
    rewrite List.app_nil_r in E. rewrite E. simpl. lia.
  - cbn [serialize size]. unfold quote. simpl. lia.
  - destruct l as [|x l]; [simpl; lia|].
    cbn [serialize size]. cbv zeta.
    set (inner := indent ++ gap).
    pose proof (join_length_sum value size (serialize inner) (44%N :: 10%N :: inner)
                  (x :: l) ltac:(simpl; lia)) as Hsum.
    rewrite !length_app. cbn [app List.length].
    cbn [app] in Hsum.
    assert (Hall : Forall (fun a => (size a <= List.length (serialize inner a))%nat)
                     (x :: l)).
    { rewrite Forall_forall in *. intros a Ha. apply IHl. exact Ha. }
    specialize (Hsum Hall). lia.
  - destruct m as [|kv m]; [simpl; lia|].
    cbn [serialize size]. cbv zeta.
    change (fun kv0 : jsstring * value =>
              quote (fst kv0) ++ [58%N; 32%N]
              ++ serialize (indent ++ gap) (snd kv0))
      with (member_text (indent ++ gap)).
    set (inner := indent ++ gap).
    pose proof (join_length_sum (jsstring * value) (fun kv => size (snd kv))
                  (member_text inner)
                  (44%N :: 10%N :: inner)
                  (kv :: m) ltac:(simpl; lia)) as Hsum.
    rewrite !length_app. cbn [app List.length].
    cbn [app] in Hsum.
    assert (Hall : Forall (fun a => (size (snd a)
                                     <= List.length (member_text inner a))%nat)
                     (kv :: m)).
    { rewrite Forall_forall in *. intros a Ha. unfold member_text.
      rewrite !length_app. specialize (IHm a Ha inner). lia. }
    specialize (Hsum Hall). lia.
Qed.

(** Every value without repeated keys comes back from its text. *)
Lemma parse_stringify v : distinct_keys v -> parse (stringify v) = Some v.
Proof.
  intros Hdk. unfold parse, stringify.
  pose proof (round_trips_all v Hdk (S (List.length (serialize [] v)))
                [] []) as H.
  rewrite List.app_nil_r in H. rewrite H; [reflexivity| | |].
  - pose proof (size_le_length v []). lia.
  - constructor.
  - exact I.
Qed.

End Json_size.

(** ** The forest through JSON *)

Lemma entry_value_eq it :
  entry_value it =
  JSON.JObject
    ([(lit "id", JSON.JNumber (id it));
      (lit "nombre", JSON.JString (nombre it));
      (lit "enlace", JSON.JString (enlace it))]
     ++ match icon it with
        | Some s => [(lit "icon", JSON.JString s)]
        | None => []
        end
     ++ match submenu it with
        | Some l => [(lit "submenu", forest_value l)]
        | None => []
        end).
Proof. destruct it as [i n e ic [l|]]; reflexivity. Qed.

Lemma forest_values_distinct_keys F :
  Forall distinct_keys (List.map entry_value F).
Proof.
  induction F as [|it rest IHsub IHrest] using forest_ind; [constructor|].
  cbn [List.map]. constructor; [|exact IHrest].
  rewrite entry_value_eq.
  destruct it as [i n e [ic|] [l|]]; cbn [icon submenu app];
    (constructor;
     [ repeat (constructor; [cbn; intuition discriminate|]); constructor
     | repeat (constructor; [cbn; try constructor|]);
       try (apply (IHsub l eq_refl)); constructor ]).
Qed.

Lemma menu_object_distinct_keys F : distinct_keys (menu_object F).
Proof.
  unfold menu_object. constructor.
  - cbn. constructor; [intros []|constructor].
  - constructor; [|constructor]. cbn. constructor.
    apply forest_values_distinct_keys.
Qed.

Lemma forest_values_injective F :
  forall G, List.map entry_value F = List.map entry_value G -> F = G.
Proof.
  induction F as [|it rest IHsub IHrest] using forest_ind; intros G H.
  - destruct G; [reflexivity|discriminate].
  - destruct G as [|it' rest']; [discriminate|].
    cbn [List.map] in H. injection H as Hit Hrest.
    rewrite (IHrest rest' Hrest). f_equal.
    rewrite !entry_value_eq in Hit.
    destruct it as [i n e [ic|] [l|]], it' as [i' n' e' [ic'|] [l'|]];
      cbn [id nombre enlace icon submenu app] in Hit;
      try discriminate Hit;
      unfold forest_value in Hit; injection Hit as -> -> ->;
      try match goal with
        | H : List.map entry_value _ = List.map entry_value _ |- _ =>
            rewrite (IHsub _ eq_refl _ H)
        end;
      subst; reflexivity.
Qed.

(** C8: the text shown in the side panel and the text of the exported file
    are the pretty-printed object with the field [menu], and parsing either
    gives back that object, whose [menu] is the forest it was written from:
    no other forest has the same object. *)
Theorem serialize_parse_round_trip :
  forall p : Page,
    JSON.parse (updateJsonView p) = Some (menu_object (menuData p))
    /\ JSON.parse (exportJson p) = Some (menu_object (menuData p))
    /\ forall F : Forest,
         menu_object F = menu_object (menuData p) -> F = menuData p.
Proof.
  intros p. unfold updateJsonView, exportJson.
  rewrite (parse_stringify _ (menu_object_distinct_keys (menuData p))).
  split; [reflexivity|]. split; [reflexivity|].
  intros F H. unfold menu_object, forest_value in H. injection H as H.
  apply forest_values_injective. exact H.
Qed.

Lemma serialize_parse_round_trip_witness :
  let F := [mkEntry 1 (lit "Home") (lit "/") None
              (Some [mkEntry 2 (lit "A") (lit "/a") (Some (lit "*")) None])] in
  JSON.parse (updateJsonView (mkPage F [])) = Some (menu_object F)
  /\ F = F.
Proof.
  pose proof (serialize_parse_round_trip
                (mkPage [mkEntry 1 (lit "Home") (lit "/") None
                           (Some [mkEntry 2 (lit "A") (lit "/a")
                                    (Some (lit "*")) None])] [])) as H.
  split.
  - exact (proj1 H).
  - exact (proj2 (proj2 H) _ eq_refl).
Defined.

(** * Further properties of the forest operations *)

(** ** findById and the ids of the forest *)

Lemma search_absent target F :
  search target F = None -> ~ In target (all_ids F).
Proof.
  induction F as [|it rest IHsub IHrest] using forest_ind; [intros _ []|].
  simpl. rewrite search_entry_eq, all_ids_cons.
  destruct (Z.eqb_spec (id it) target) as [E|NE]; [discriminate|].
  destruct (submenu it) as [l|].
  - destruct (search target l) eqn:Hl; [discriminate|].
    intros Hrest [E|Hin]; [contradiction|].
    apply in_app_or in Hin. destruct Hin as [Hin|Hin].
    + exact (IHsub l eq_refl Hl Hin).
    + exact (IHrest Hrest Hin).
  - intros Hrest [E|Hin]; [contradiction|]. exact (IHrest Hrest Hin).
Qed.

(** X1: [findById] answers with an entry exactly when some entry of the
    forest, at any depth, has the id, and the entry it answers with has
    that id. *)
Theorem findById_finds_exactly_the_ids :
  forall (target : Z) (F : Forest),
    (forall e, findById target F = Some e -> id e = target)
    /\ ((exists e, findById target F = Some e) <-> In target (all_ids F)).
Proof.
  intros target F. split.
  - intros e H. apply (search_found target F e H).
  - split.
    + intros [e H]. apply (search_found target F e H).
    + intros Hin. unfold findById.
      destruct (search target F) as [e|] eqn:H; [exists e; reflexivity|].
      exfalso. exact (search_absent target F H Hin).
Qed.

Lemma findById_finds_exactly_the_ids_witness :
  let F := [mkEntry 1 (lit "Home") (lit "/") None
              (Some [mkEntry 2 (lit "A") (lit "/a") None None])] in
  exists e, findById 2 F = Some e /\ id e = 2.
Proof.
  pose proof (findById_finds_exactly_the_ids 2
                [mkEntry 1 (lit "Home") (lit "/") None
                   (Some [mkEntry 2 (lit "A") (lit "/a") None None])])
    as [Hid [_ Hin]].
  destruct Hin as [e He]; [right; left; reflexivity|].
  exists e. split; [exact He|]. apply Hid. exact He.
Defined.

(** ** Deleting twice, deleting in either order *)

Lemma filterOut_comm a b F :
  filterOut a (filterOut b F) = filterOut b (filterOut a F).
Proof.
  induction F as [|it rest IHsub IHrest] using forest_ind; [reflexivity|].
  cbn [filterOut].
  destruct (Z.eqb_spec (id it) b) as [Eb|NEb];
    destruct (Z.eqb_spec (id it) a) as [Ea|NEa].
  - exact IHrest.
  - cbn [filterOut]. rewrite filterOut_kept_eq. cbn [id].
    destruct (Z.eqb_spec (id it) b); [exact IHrest|contradiction].
  - cbn [filterOut]. rewrite filterOut_kept_eq. cbn [id].
    destruct (Z.eqb_spec (id it) a); [exact IHrest|contradiction].
  - cbn [filterOut]. rewrite !(filterOut_kept_eq _ it). cbn [id].
    destruct (Z.eqb_spec (id it) a); [contradiction|].
    destruct (Z.eqb_spec (id it) b); [contradiction|].
    rewrite IHrest. f_equal.
    rewrite !filterOut_kept_eq. cbn [id nombre enlace icon submenu].
    f_equal. destruct (submenu it) as [l|]; [|reflexivity].
    cbn [option_map]. rewrite (IHsub l eq_refl). reflexivity.
Qed.

(** X2: two deletions give the same forest in either order. *)
Theorem deleteItem_commutes :
  forall (a b : Z) (p : Page),
    menuData (deleteItem true a (deleteItem true b p)) =
    menuData (deleteItem true b (deleteItem true a p)).
Proof. intros a b p. simpl. apply filterOut_comm. Qed.

(** X3: deleting the same id a second time changes nothing more. *)
Theorem deleteItem_idempotent :
  forall (target : Z) (p : Page),
    menuData (deleteItem true target (deleteItem true target p)) =
    menuData (deleteItem true target p).
Proof.
  intros target p. simpl. apply filterOut_absent. apply search_filterOut.
Qed.

(** ** Ids after a deletion *)

Lemma NoDup_map_filter (A B : Type) (f : A -> B) (keep : A -> bool) l :
  NoDup (List.map f l) -> NoDup (List.map f (filter keep l)).
Proof.
  induction l as [|x l IH]; intros H; [constructor|].
  cbn [List.map] in H. inversion H as [|? ? Hx Hl]; subst.
  cbn [filter]. destruct (keep x); [|exact (IH Hl)].
  cbn [List.map]. constructor; [|exact (IH Hl)].
  intros Hin. apply Hx. apply in_map_iff in Hin.
  destruct Hin as (y & Hy & Hin). apply filter_In in Hin.
  apply in_map_iff. exists y. split; [exact Hy|apply Hin].
Qed.

Lemma all_ids_filterOut target F :
  all_ids (filterOut target F) =
  List.map vid (filter (outside target)
                  (List.map forget_kids (views [] F))).
Proof.
  rewrite <- (views_filterOut target F [] eq_refl).
  unfold all_ids. rewrite map_map. reflexivity.
Qed.

Lemma all_ids_forget F :
  all_ids F = List.map vid (List.map forget_kids (views [] F)).
Proof. unfold all_ids. rewrite map_map. reflexivity. Qed.

(** X4: a deletion brings no id in and leaves none twice: the ids that
    remain were there before, none of them is the deleted id, ids that were
    unique stay unique, and the next id to allocate does not grow. *)
Theorem deleteItem_ids :
  forall (target : Z) (p : Page),
    let F := menuData p in
    let F' := menuData (deleteItem true target p) in
    (forall i, In i (all_ids F') -> In i (all_ids F) /\ i <> target)
    /\ (NoDup (all_ids F) -> NoDup (all_ids F'))
    /\ nextId F' <= nextId F.
Proof.
  intros target p F F'. subst F'. simpl. fold F.
  assert (Hsub : forall i, In i (all_ids (filterOut target F)) ->
                           In i (all_ids F)).
  { intros i. rewrite all_ids_filterOut, (all_ids_forget F).
    intros Hin. apply in_map_iff in Hin. destruct Hin as (v & Hv & Hin).
    apply filter_In in Hin. apply in_map_iff. exists v.
    split; [exact Hv|apply Hin]. }
  split; [|split].
  - intros i Hin. split; [exact (Hsub i Hin)|].
    intros ->. exact (search_absent target _ (search_filterOut target F) Hin).
  - rewrite all_ids_filterOut, (all_ids_forget F). apply NoDup_map_filter.
  - rewrite !nextId_eq.
    assert (Hmax : forall l l' : list Z,
               (forall i, In i l' -> In i l) -> maximum l' <= maximum l).
    { intros l l'. induction l' as [|x l' IH]; intros Hin.
      - apply maximum_nonneg.
      - change (maximum (x :: l')) with (Z.max x (maximum l')).
        pose proof (maximum_ge l x (Hin x (or_introl eq_refl))).
        specialize (IH (fun i Hi => Hin i (or_intror Hi))). lia. }
    apply add_one_mono.
    exact (Hmax (all_ids F) (all_ids (filterOut target F)) Hsub).
Qed.

Lemma deleteItem_ids_witness :
  let F := [mkEntry 1 (lit "Home") (lit "/") None
              (Some [mkEntry 2 (lit "A") (lit "/a") None None]);
            mkEntry 3 (lit "B") (lit "/b") None None] in
  NoDup (all_ids (menuData (deleteItem true 1 (mkPage F [])))).
Proof.
  refine (proj1 (proj2 (deleteItem_ids 1
            (mkPage [mkEntry 1 (lit "Home") (lit "/") None
                       (Some [mkEntry 2 (lit "A") (lit "/a") None None]);
                     mkEntry 3 (lit "B") (lit "/b") None None] []))) _).
  cbv. repeat constructor; cbv; intuition discriminate.
Defined.

(** ** Ids after a creation *)

Lemma all_ids_app F G : all_ids (F ++ G) = all_ids F ++ all_ids G.
Proof.
  unfold all_ids, views. rewrite flat_map_app, map_app. reflexivity.
Qed.

Lemma mutate_push_ids target e F parent :
  search target F = Some parent ->
  exists F' pre post,
    mutate target (push_submenu e) F = Some F'
    /\ all_ids F = pre ++ post
    /\ all_ids F' = pre ++ all_ids [e] ++ post.
Proof.
  remember (all_ids [e]) as ide eqn:Hide.
  induction F as [|it rest IHsub IHrest] using forest_ind; [discriminate|].
  simpl search. rewrite search_entry_eq. simpl mutate.
  rewrite mutate_entry_eq.
  destruct (Z.eqb_spec (id it) target) as [E|NE].
  { intros _.
    exists (push_submenu e it :: rest),
      (id it :: match submenu it with
                | Some l => all_ids l
                | None => []
                end), (all_ids rest).
    split; [reflexivity|]. rewrite !all_ids_cons.
    split; [reflexivity|].
    cbn [push_submenu id submenu]. rewrite all_ids_app, <- Hide.
    destruct (submenu it) as [l|]; cbn [app];
      rewrite <- ?app_assoc; reflexivity. }
  destruct (submenu it) as [l|] eqn:Hl.
  - destruct (search target l) as [r|] eqn:Hs.
    + intros [= <-].
      destruct (IHsub l eq_refl Hs) as (l' & pre & post & Hm & Hv & Hv').
      rewrite Hm. cbn [option_map].
      eexists. exists (id it :: pre), (post ++ all_ids rest).
      split; [reflexivity|]. rewrite !all_ids_cons.
      cbn [id submenu]. rewrite Hl, Hv, Hv'.
      split; cbn [app]; rewrite <- !app_assoc; reflexivity.
    + rewrite (mutate_absent target _ l Hs). cbn [option_map]. intros H.
      destruct (IHrest H) as (rest' & pre & post & Hm & Hv & Hv').
      rewrite Hm.
      eexists. exists (id it :: all_ids l ++ pre), post.
      split; [reflexivity|]. rewrite !all_ids_cons, Hl, Hv, Hv'.
      split; cbn [app]; rewrite <- !app_assoc; reflexivity.
  - intros H.
    destruct (IHrest H) as (rest' & pre & post & Hm & Hv & Hv').
    rewrite Hm.
    eexists. exists (id it :: pre), post.
    split; [reflexivity|]. rewrite !all_ids_cons, Hl, Hv, Hv'.
    split; reflexivity.
Qed.

(** Below 2^53 the id that [nextId] gives is above every id. *)
Lemma maximum_below l :
  (forall i, In i l -> i < 2 ^ 53) -> maximum l < 2 ^ 53.
Proof.
  unfold maximum. induction l as [|a l IH]; intros H.
  - reflexivity.
  - cbn [fold_right].
    pose proof (H a (or_introl eq_refl)).
    specialize (IH (fun i Hi => H i (or_intror Hi))). lia.
Qed.

Lemma nextId_exact F :
  below_2_53 F -> nextId F = maximum (all_ids F) + 1.
Proof.
  intros H. rewrite nextId_eq. apply add_one_exact.
  apply maximum_below. exact H.
Qed.

Lemma findById_nextId_fresh F :
  below_2_53 F -> search (nextId F) F = None.
Proof.
  intros H. apply search_fresh. intros i Hi.
  apply maximum_ge in Hi. rewrite (nextId_exact F H). lia.
Qed.

Lemma add_one_below max : add_one max < 2 ^ 53 -> add_one max = max + 1.
Proof.
  unfold add_one.
  change (2 ^ 53) with 9007199254740992.
  change (2 ^ 54) with 18014398509481984.
  destruct (Z.ltb_spec max 9007199254740992); [reflexivity|].
  destruct (Z.ltb_spec max 18014398509481984); [|lia].
  pose proof (Z.div_le_lower_bound (max + 2) 4 2251799813685248
                ltac:(lia) ltac:(lia)).
  lia.
Qed.

(** The ids after a creation: those of before, and the new id at one
    place among them. *)
Lemma submit_create_ids form p :
  accepted form ->
  truthy (editingIdInput form) = None ->
  exists pre post,
    all_ids (menuData p) = pre ++ post
    /\ all_ids (menuData (submit form p)) =
       pre ++ nextId (menuData p) :: post.
Proof.
  intros Hacc Hed. rewrite (submit_create form p Hacc Hed). cbv zeta.
  set (F := menuData p). set (e := created form F).
  assert (Hroot : exists pre post,
             all_ids F = pre ++ post
             /\ all_ids (F ++ [e]) = pre ++ nextId F :: post).
  { exists (all_ids F), []. rewrite List.app_nil_r, all_ids_app.
    split; reflexivity. }
  destruct (truthy (parentIdInput form)) as [parentId|]; [|exact Hroot].
  destruct (findById parentId F) as [parent|] eqn:Hfind; [|exact Hroot].
  destruct (mutate_push_ids parentId e F parent Hfind)
    as (F' & pre & post & Hm & Hv & Hv').
  exists pre, post. split; [exact Hv|].
  cbn [menuData resetForm renderMenu saveToLocalStorage showMessage].
  unfold assign. rewrite Hm. exact Hv'.
Qed.

Lemma NoDup_insert (A : Type) (x : A) pre post :
  NoDup (pre ++ post) -> ~ In x (pre ++ post) -> NoDup (pre ++ x :: post).
Proof.
  induction pre as [|a pre IH]; cbn [app]; intros Hnd Hx.
  - constructor; assumption.
  - inversion Hnd as [|? ? Ha Hnd']; subst. constructor.
    + intros Hin. apply in_app_or in Hin. destruct Hin as [Hin|[E|Hin]].
      * apply Ha. apply in_or_app. left. exact Hin.
      * apply Hx. left. symmetry. exact E.
      * apply Ha. apply in_or_app. right. exact Hin.
    + apply IH; [exact Hnd'|]. intros Hin. apply Hx. right. exact Hin.
Qed.

(** X5: in a forest whose ids are below 2^53 a creation keeps the ids
    unique: the ids of the forest afterwards are those of before with one
    more, the allocated one, which no entry had. *)
Theorem submit_create_keeps_ids_unique :
  forall (form : Form) (p : Page),
    accepted form ->
    truthy (editingIdInput form) = None ->
    below_2_53 (menuData p) ->
    ~ In (nextId (menuData p)) (all_ids (menuData p))
    /\ (NoDup (all_ids (menuData p)) ->
        NoDup (all_ids (menuData (submit form p)))).
Proof.
  intros form p Hacc Hed Hsafe.
  assert (Hfresh : ~ In (nextId (menuData p)) (all_ids (menuData p))).
  { apply search_absent. apply findById_nextId_fresh. exact Hsafe. }
  split; [exact Hfresh|].
  destruct (submit_create_ids form p Hacc Hed) as (pre & post & Hv & Hv').
  rewrite Hv', Hv in *. intros Hnd. apply NoDup_insert; assumption.
Qed.

Lemma submit_create_keeps_ids_unique_witness :
  let home := mkEntry 1 (lit "Home") (lit "/") None None in
  let form := mkForm None (lit "About") (lit "/about") (lit "") (Some 1) in
  NoDup (all_ids (menuData (submit form (mkPage [home] [])))).
Proof.
  refine (proj2 (submit_create_keeps_ids_unique
            (mkForm None (lit "About") (lit "/about") (lit "") (Some 1))
            (mkPage [mkEntry 1 (lit "Home") (lit "/") None None] [])
            _ eq_refl _) _).
  - split; [discriminate|reflexivity].
  - intros i [<-|[]]. reflexivity.
  - cbv. repeat constructor; cbv; intuition discriminate.
Defined.

(** X6: ids are allocated one after the other: when the id given to a
    creation is below 2^53, the next id after it is one more. *)
Theorem submit_create_next_id :
  forall (form : Form) (p : Page),
    accepted form ->
    truthy (editingIdInput form) = None ->
    nextId (menuData p) < 2 ^ 53 ->
    nextId (menuData (submit form p)) = nextId (menuData p) + 1.
Proof.
  intros form p Hacc Hed Hsafe.
  destruct (submit_create_ids form p Hacc Hed) as (pre & post & Hv & Hv').
  rewrite (nextId_eq (menuData (submit form p))), Hv'.
  revert Hsafe. rewrite (nextId_eq (menuData p)), Hv. intros Hsafe.
  pose proof (add_one_below _ Hsafe) as Hnext. rewrite Hnext in *.
  rewrite !maximum_app in *.
  change (maximum (?x :: post)) with (Z.max x (maximum post)).
  pose proof (maximum_nonneg pre). pose proof (maximum_nonneg post).
  rewrite add_one_exact by lia. lia.
Qed.

Lemma submit_create_next_id_witness :
  let home := mkEntry 4 (lit "Home") (lit "/") None None in
  let form := mkForm None (lit "About") (lit "/about") (lit "") None in
  nextId (menuData (submit form (mkPage [home] []))) = 5 + 1.
Proof.
  refine (submit_create_next_id
            (mkForm None (lit "About") (lit "/about") (lit "") None)
            (mkPage [mkEntry 4 (lit "Home") (lit "/") None None] [])
            _ eq_refl _).
  - split; [discriminate|reflexivity].
  - reflexivity.
Defined.

(** ** Ids after an edit *)

(** X7: a submit with an editing id other than 0 never changes the ids of
    the forest, whether it updates the entry, misses it or is rejected; so
    the next id to allocate stays the same. *)
Theorem submit_edit_keeps_ids :
  forall (form : Form) (p : Page) (editingId : Z),
    editingIdInput form = Some editingId ->
    editingId <> 0 ->
    all_ids (menuData (submit form p)) = all_ids (menuData p)
    /\ nextId (menuData (submit form p)) = nextId (menuData p).
Proof.
  intros form p editingId Hed Hz.
  assert (Hids : all_ids (menuData (submit form p)) = all_ids (menuData p)).
  { unfold submit. rewrite Hed. cbn [truthy].
    destruct (Z.eqb_spec editingId 0) as [|_]; [contradiction|].
    destruct (truthy_string (trim (nombreInput form))); [|reflexivity].
    destruct (validateUrl (trim (enlaceInput form))); [|reflexivity].
    cbn [negb]. cbv iota.
    destruct (findById editingId (menuData p)) as [item|] eqn:Hfind;
      [|reflexivity].
    cbn [menuData resetForm renderMenu saveToLocalStorage showMessage
           setMenuData].
    destruct (mutate_views editingId
                (set_fields (trim (nombreInput form))
                   (trim (enlaceInput form)) (trim (iconoInput form)))
                (menuData p) item (fun _ => eq_refl) (fun _ => eq_refl)
                Hfind [])
      as (F' & pre & post & path & Hm & _ & Hv & Hv').
    unfold assign. rewrite Hm. unfold all_ids. rewrite Hv, Hv'.
    rewrite !map_app. reflexivity. }
  split; [exact Hids|]. rewrite !nextId_eq, Hids. reflexivity.
Qed.

Lemma submit_edit_keeps_ids_witness :
  let home := mkEntry 1 (lit "Home") (lit "/") None None in
  let form := mkForm (Some 1) (lit "Start") (lit "/start") (lit "") None in
  all_ids (menuData (submit form (mkPage [home] []))) = [1].
Proof.
  refine (proj1 (submit_edit_keeps_ids
            (mkForm (Some 1) (lit "Start") (lit "/start") (lit "") None)
            (mkPage [mkEntry 1 (lit "Home") (lit "/") None None] []) 1
            eq_refl _)).
  discriminate.
Defined.

(** ** Creating an entry and deleting it again *)

Lemma filterOut_app target F G :
  filterOut target (F ++ G) = filterOut target F ++ filterOut target G.
Proof.
  induction F as [|it rest IH]; [reflexivity|].
  cbn [app filterOut]. destruct (id it =? target); rewrite IH; reflexivity.
Qed.

Lemma filterOut_push target e F parent :
  search (id e) F = None ->
  search target F = Some parent ->
  filterOut (id e) (assign target (push_submenu e) F) =
  assign target with_submenu_array F.
Proof.
  unfold assign.
  induction F as [|it rest IHsub IHrest] using forest_ind; [discriminate|].
  simpl search. rewrite !search_entry_eq. simpl mutate.
  rewrite !mutate_entry_eq.
  destruct (Z.eqb_spec (id it) (id e)) as [|NEn]; [discriminate|].
  destruct (Z.eqb_spec (id it) target) as [E|NE].
  { intros Hn _. cbn [filterOut push_submenu id].
    destruct (Z.eqb_spec (id it) (id e)); [contradiction|].
    rewrite filterOut_kept_eq.
    cbn [push_submenu id nombre enlace icon submenu option_map].
    rewrite filterOut_app. cbn [filterOut]. rewrite Z.eqb_refl.
    rewrite List.app_nil_r. unfold with_submenu_array.
    revert Hn. destruct (submenu it) as [l|].
    - destruct (search (id e) l) eqn:Hl; [discriminate|]. intros Hrest.
      rewrite (filterOut_absent (id e) l Hl).
      rewrite (filterOut_absent (id e) rest Hrest). reflexivity.
    - intros Hrest. rewrite (filterOut_absent (id e) rest Hrest).
      reflexivity. }
  destruct (submenu it) as [l|] eqn:Hsm.
  - destruct (search (id e) l) eqn:Hnl; [discriminate|]. intros Hn.
    destruct (search target l) as [r|] eqn:Hl.
    + intros [= <-]. specialize (IHsub l eq_refl Hnl Hl).
      destruct (mutate_found target (push_submenu e) l r
                  (fun _ => eq_refl) Hl) as (l1 & Hm1 & _).
      destruct (mutate_found target with_submenu_array l r
                  (fun _ => eq_refl) Hl) as (l2 & Hm2 & _).
      rewrite Hm1, Hm2 in *. cbn [option_map filterOut id].
      destruct (Z.eqb_spec (id it) (id e)); [contradiction|].
      rewrite filterOut_kept_eq. cbn [id nombre enlace icon submenu option_map].
      rewrite IHsub, (filterOut_absent (id e) rest Hn). reflexivity.
    + rewrite !(mutate_absent target _ l Hl). cbn [option_map]. intros H.
      specialize (IHrest Hn H).
      destruct (mutate_found target (push_submenu e) rest parent
                  (fun _ => eq_refl) H) as (r1 & Hm1 & _).
      destruct (mutate_found target with_submenu_array rest parent
                  (fun _ => eq_refl) H) as (r2 & Hm2 & _).
      rewrite Hm1, Hm2 in *. cbn [filterOut].
      destruct (Z.eqb_spec (id it) (id e)); [contradiction|].
      rewrite filterOut_kept_eq, Hsm. cbn [option_map].
      rewrite (filterOut_absent (id e) l Hnl), IHrest.
      destruct it as [i n0 e0 ic s]. cbn in Hsm. subst s. reflexivity.
  - intros Hn H. specialize (IHrest Hn H).
    destruct (mutate_found target (push_submenu e) rest parent
                (fun _ => eq_refl) H) as (r1 & Hm1 & _).
    destruct (mutate_found target with_submenu_array rest parent
                (fun _ => eq_refl) H) as (r2 & Hm2 & _).
    rewrite Hm1, Hm2 in *. cbn [filterOut].
    destruct (Z.eqb_spec (id it) (id e)); [contradiction|].
    rewrite filterOut_kept_eq, Hsm. cbn [option_map]. rewrite IHrest.
    destruct it as [i n0 e0 ic s]. cbn in Hsm. subst s. reflexivity.
Qed.

(** A mutation that gives back the object it was given leaves the forest
    as it is. *)
Lemma mutate_fixed target f F e :
  search target F = Some e -> f e = e -> mutate target f F = Some F.
Proof.
  intros Hs Hf. revert Hs.
  induction F as [|it rest IHsub IHrest] using forest_ind; [discriminate|].
  simpl search. rewrite search_entry_eq. simpl mutate.
  rewrite mutate_entry_eq.
  destruct (Z.eqb_spec (id it) target) as [E|NE].
  { intros [= ->]. rewrite Hf. reflexivity. }
  destruct (submenu it) as [l|] eqn:Hsm.
  - destruct (search target l) as [r|] eqn:Hl.
    + intros [= ->]. rewrite (IHsub l eq_refl Hl). cbn [option_map].
      destruct it as [i n0 e0 ic s]. cbn in Hsm. subst s. reflexivity.
    + rewrite (mutate_absent target f l Hl). cbn [option_map]. intros H.
      rewrite (IHrest H). reflexivity.
  - intros H. rewrite (IHrest H). reflexivity.
Qed.

Lemma assign_fixed target f F e :
  search target F = Some e -> f e = e -> assign target f F = F.
Proof.
  intros Hs Hf. unfold assign. rewrite (mutate_fixed target f F e Hs Hf).
  reflexivity.
Qed.

(** X8: in a forest whose ids are below 2^53, deleting the entry that a
    creation has just made gives back the forest of before, with one
    difference: a parent that had no submenu keeps the empty submenu that
    the creation gave it. *)
Theorem submit_create_then_delete :
  forall (form : Form) (p : Page),
    accepted form ->
    truthy (editingIdInput form) = None ->
    below_2_53 (menuData p) ->
    let F := menuData p in
    let F'' := menuData (deleteItem true (nextId F) (submit form p)) in
    F'' = match truthy (parentIdInput form) with
          | Some parentId => assign parentId with_submenu_array F
          | None => F
          end
    /\ (forall parentId parent,
           truthy (parentIdInput form) = Some parentId ->
           findById parentId F = Some parent ->
           submenu parent <> None ->
           F'' = F).
Proof.
  intros form p Hacc Hed Hsafe F F''.
  assert (HF'' : F'' = match truthy (parentIdInput form) with
                       | Some parentId => assign parentId with_submenu_array F
                       | None => F
                       end).
  { subst F''. rewrite (submit_create form p Hacc Hed). cbv zeta. fold F.
    pose proof (findById_nextId_fresh F Hsafe) as Hfresh.
    assert (Hroot : filterOut (nextId F) (F ++ [created form F]) = F).
    { rewrite filterOut_app, (filterOut_absent _ F Hfresh).
      cbn. rewrite Z.eqb_refl. apply List.app_nil_r. }
    destruct (truthy (parentIdInput form)) as [parentId|]; [|exact Hroot].
    destruct (findById parentId F) as [parent|] eqn:Hfind.
    - cbn [deleteItem negb menuData setMenuData resetForm renderMenu
             saveToLocalStorage showMessage].
      apply (filterOut_push parentId (created form F) F parent Hfresh Hfind).
    - unfold assign. unfold findById in Hfind.
      rewrite (mutate_absent parentId _ F Hfind). exact Hroot. }
  split; [exact HF''|].
  intros parentId parent Hpar Hfind Hsub. rewrite HF'', Hpar.
  apply (assign_fixed parentId with_submenu_array F parent Hfind).
  destruct parent as [i n e ic [l|]]; [reflexivity|contradiction].
Qed.

Lemma submit_create_then_delete_witness :
  let home := mkEntry 1 (lit "Home") (lit "/") None (Some []) in
  let form := mkForm None (lit "About") (lit "/about") (lit "") (Some 1) in
  menuData (deleteItem true 2 (submit form (mkPage [home] []))) = [home].
Proof.
  refine (proj2 (submit_create_then_delete
            (mkForm None (lit "About") (lit "/about") (lit "") (Some 1))
            (mkPage [mkEntry 1 (lit "Home") (lit "/") None (Some [])] [])
            _ eq_refl _) 1 _ eq_refl eq_refl _).
  - split; [discriminate|reflexivity].
  - intros i [<-|[]]. reflexivity.
  - discriminate.
Defined.

(** ** No change without saving *)

(** X9: a submit ends in one of two ways.  Either it shows one error and
    stops, and then the forest is the one it was and nothing is saved,
    rendered or reset; or it shows its messages, none of them an error,
    and then saves and renders the forest as it has become and resets the
    form. *)
Theorem submit_fails_clean_or_saves :
  forall (form : Form) (p : Page),
    let p' := submit form p in
    (menuData p' = menuData p
     /\ exists msg, effects p' = effects p ++ [ShowMessage msg true])
    \/ (exists shown,
          effects p' =
          effects p ++ shown
          ++ [SaveToLocalStorage (menuData p'); RenderMenu (menuData p');
              ResetForm]
          /\ Forall (fun e => exists msg, e = ShowMessage msg false) shown).
Proof.
  intros form p p'. subst p'. unfold submit.
  destruct (truthy_string (trim (nombreInput form))); cbn [negb];
    [|left; split; [reflexivity|eexists; reflexivity]].
  destruct (validateUrl (trim (enlaceInput form))); cbn [negb];
    [|left; split; [reflexivity|eexists; reflexivity]].
  destruct (truthy (editingIdInput form)) as [editingId|].
  - destruct (findById editingId (menuData p));
      [|left; split; [reflexivity|eexists; reflexivity]].
    right. exists [ShowMessage MsgActualizado false].
    split; [|repeat constructor; eexists; reflexivity].
    cbn. rewrite <- !app_assoc. reflexivity.
  - right. destruct (truthy (parentIdInput form)) as [parentId|].
    + destruct (findById parentId (menuData p)).
      * exists [ShowMessage MsgAnadida false].
        split; [|repeat constructor; eexists; reflexivity].
        cbn. rewrite <- !app_assoc. reflexivity.
      * exists [ShowMessage MsgParentNoEncontrado false;
                ShowMessage MsgAnadida false].
        split; [|repeat constructor; eexists; reflexivity].
        cbn. rewrite <- !app_assoc. reflexivity.
    + exists [ShowMessage MsgAnadida false].
      split; [|repeat constructor; eexists; reflexivity].
      cbn. rewrite <- !app_assoc. reflexivity.
Qed.

(** * escapeHtml *)

Section Escape_html.
Local Open Scope N_scope.

Lemma replace_all_app c by_ a b :
  replace_all c by_ (a ++ b) = replace_all c by_ a ++ replace_all c by_ b.
Proof. unfold replace_all. apply flat_map_app. Qed.

Lemma escape_unit_replaced c :
  replace_all 34 (lit "&quot;")
    (replace_all 62 (lit "&gt;")
       (replace_all 60 (lit "&lt;")
          (replace_all 38 (lit "&amp;") [c]))) = escape_unit c.
Proof.
  unfold escape_unit.
  destruct (N.eqb_spec c 38) as [->|H38]; [reflexivity|].
  destruct (N.eqb_spec c 60) as [->|H60]; [reflexivity|].
  destruct (N.eqb_spec c 62) as [->|H62]; [reflexivity|].
  destruct (N.eqb_spec c 34) as [->|H34]; [reflexivity|].
  unfold replace_all. cbn [flat_map app].
  destruct (N.eqb_spec c 38); [contradiction|]. cbn [flat_map app].
  destruct (N.eqb_spec c 60); [contradiction|]. cbn [flat_map app].
  destruct (N.eqb_spec c 62); [contradiction|]. cbn [flat_map app].
  destruct (N.eqb_spec c 34); [contradiction|]. reflexivity.
Qed.

(** The four replacements in a row come to one pass over the string. *)
Lemma escapeHtml_units s : escapeHtml s = flat_map escape_unit s.
Proof.
  unfold escapeHtml. destruct s as [|c0 s0]; [reflexivity|].
  cbn [truthy_string negb]. generalize (c0 :: s0). clear. intros s.
  induction s as [|c s IH]; [reflexivity|].
  change (c :: s) with ([c] ++ s).
  rewrite !replace_all_app, escape_unit_replaced, IH. reflexivity.
Qed.

Lemma escapeHtml_app a b : escapeHtml (a ++ b) = escapeHtml a ++ escapeHtml b.
Proof. rewrite !escapeHtml_units. apply flat_map_app. Qed.

Lemma escapeHtml_cons c s : escapeHtml (c :: s) = escape_unit c ++ escapeHtml s.
Proof. rewrite !escapeHtml_units. reflexivity. Qed.

Ltac escape_cases c :=
  unfold escape_unit;
  destruct (N.eqb_spec c 38) as [->|?];
  [|destruct (N.eqb_spec c 60) as [->|?];
    [|destruct (N.eqb_spec c 62) as [->|?];
      [|destruct (N.eqb_spec c 34) as [->|?]]]].

Lemma escape_unit_head_inj x y A B :
  escape_unit x ++ A = escape_unit y ++ B -> x = y /\ A = B.
Proof.
  escape_cases x; escape_cases y; cbn [lit List.map list_ascii_of_string app];
    cbn; intros H; try discriminate H;
    try (injection H as H; split; [reflexivity|exact H]);
    try (injection H as E H; try (subst; contradiction);
         try (symmetry in E; contradiction); split; assumption).
Qed.

(** X10: [escapeHtml] loses nothing: two strings with the same escaped
    form are the same string. *)
Theorem escapeHtml_injective :
  forall a b : jsstring, escapeHtml a = escapeHtml b -> a = b.
Proof.
  intros a. induction a as [|x a IH]; intros b H.
  - destruct b as [|y b]; [reflexivity|].
    rewrite escapeHtml_cons in H. exfalso. revert H.
    escape_cases y; cbn; discriminate.
  - destruct b as [|y b].
    + rewrite escapeHtml_cons in H. exfalso. revert H.
      escape_cases x; cbn; discriminate.
    + rewrite !escapeHtml_cons in H.
      apply escape_unit_head_inj in H. destruct H as [-> H].
      rewrite (IH b H). reflexivity.
Qed.

Lemma escapeHtml_injective_witness :
  lit "a<b" = lit "a<b".
Proof.
  apply (escapeHtml_injective (lit "a<b") (lit "a<b")). reflexivity.
Defined.


Lemma split_after_prefix (ent text pre post : jsstring) :
  ~ In 38 ent ->
  ent ++ text = pre ++ 38 :: post ->
  exists pre', pre = ent ++ pre' /\ text = pre' ++ 38 :: post.
Proof.
  revert pre. induction ent as [|a ent IH]; intros pre Hent H.
  - exists pre. split; [reflexivity|exact H].
  - destruct pre as [|p pre].
    + cbn [app] in H. injection H as E _. exfalso. apply Hent. left. exact E.
    + cbn [app] in H. injection H as -> H.
      destruct (IH pre (fun Hin => Hent (or_intror Hin)) H)
        as (pre' & -> & Htext).
      exists pre'. split; [reflexivity|exact Htext].
Qed.

Lemma escape_unit_shape c :
  (is_html_special c = false /\ escape_unit c = [c])
  \/ (is_html_special c = true
      /\ exists tail, In tail entity_tails /\ ~ In 38 tail
                      /\ escape_unit c = 38 :: tail).
Proof.
  unfold is_html_special. escape_cases c.
  - right. split; [reflexivity|]. exists (lit "amp;").
    split; [left; reflexivity|]. split; [|reflexivity].
    cbn. intuition discriminate.
  - right. split; [reflexivity|]. exists (lit "lt;").
    split; [right; left; reflexivity|]. split; [|reflexivity].
    cbn. intuition discriminate.
  - right. split; [reflexivity|]. exists (lit "gt;").
    split; [right; right; left; reflexivity|]. split; [|reflexivity].
    cbn. intuition discriminate.
  - right. split; [reflexivity|]. exists (lit "quot;").
    split; [right; right; right; left; reflexivity|]. split; [|reflexivity].
    cbn. intuition discriminate.
  - left. split; [|reflexivity].
    destruct (N.eqb_spec c 38); [contradiction|].
    destruct (N.eqb_spec c 60); [contradiction|].
    destruct (N.eqb_spec c 62); [contradiction|].
    destruct (N.eqb_spec c 34); [contradiction|]. reflexivity.
Qed.

Lemma entity_tail_plain tail :
  In tail entity_tails -> Forall (fun c => c <> 60 /\ c <> 62 /\ c <> 34) tail.
Proof.
  intros [<-|[<-|[<-|[<-|[]]]]]; repeat constructor; discriminate.
Qed.

(** X11: the text that [escapeHtml] gives holds no less-than, no
    greater-than and no double quote, and each ampersand in it begins one of
    the entities [&amp;], [&lt;], [&gt;], [&quot;]. *)
Theorem escapeHtml_output_is_text :
  forall s : jsstring,
    Forall (fun c => c <> 60 /\ c <> 62 /\ c <> 34) (escapeHtml s)
    /\ (forall pre post,
          escapeHtml s = pre ++ 38 :: post ->
          exists tail rest, In tail entity_tails /\ post = tail ++ rest).
Proof.
  intros s. induction s as [|c s [IHplain IHamp]].
  - split; [constructor|]. intros [|? ?] post H; discriminate H.
  - rewrite escapeHtml_cons.
    destruct (escape_unit_shape c)
      as [[Hc ->]|[Hc (tail & Htail & Hno & ->)]].
    + split.
      * constructor; [|exact IHplain].
        unfold is_html_special in Hc.
        destruct (N.eqb_spec c 38); [discriminate|].
        destruct (N.eqb_spec c 60); [discriminate|].
        destruct (N.eqb_spec c 62); [discriminate|].
        destruct (N.eqb_spec c 34); [discriminate|]. repeat split; assumption.
      * intros pre post H. destruct pre as [|p pre].
        -- cbn [app] in H. injection H as -> _. discriminate Hc.
        -- cbn [app] in H. injection H as _ H. exact (IHamp pre post H).
    + split.
      * cbn [app]. constructor; [repeat split; discriminate|].
        apply Forall_app. split; [exact (entity_tail_plain tail Htail)|].
        exact IHplain.
      * intros pre post H. destruct pre as [|p pre].
        -- cbn [app] in H. injection H as H.
           exists tail, (escapeHtml s). split; [exact Htail|].
           symmetry. exact H.
        -- cbn [app] in H. injection H as _ H.
           destruct (split_after_prefix tail (escapeHtml s) pre post Hno H)
             as (pre' & _ & Htext).
           exact (IHamp pre' post Htext).
Qed.

Lemma escapeHtml_output_is_text_witness :
  exists tail rest,
    In tail entity_tails /\ lit "lt;b" = tail ++ rest.
Proof.
  apply (proj2 (escapeHtml_output_is_text (lit "a<b")) (lit "a") (lit "lt;b")).
  reflexivity.
Defined.

Lemma escapeHtml_length s :
  (List.length s <= List.length (escapeHtml s))%nat.
Proof.
  induction s as [|c s IH]; [apply le_n|].
  rewrite escapeHtml_cons, length_app. cbn [List.length].
  destruct (escape_unit_shape c) as [[_ ->]|[_ (tail & _ & _ & ->)]];
    cbn [List.length]; lia.
Qed.

(** X12: [escapeHtml] gives a string back as it is exactly when the string
    has none of the four characters it replaces. *)
Theorem escapeHtml_unchanged_iff :
  forall s : jsstring,
    escapeHtml s = s <-> existsb is_html_special s = false.
Proof.
  intros s. induction s as [|c s IH]; [split; reflexivity|].
  rewrite escapeHtml_cons. cbn [existsb].
  destruct (escape_unit_shape c)
    as [[Hc ->]|[Hc (tail & Htail & _ & ->)]]; rewrite Hc; cbn [orb app].
  - rewrite <- IH. split; [intros [= H]; exact H|intros ->; reflexivity].
  - split; [|discriminate]. intros H. exfalso.
    apply (f_equal (@List.length N)) in H.
    cbn [List.length] in H. rewrite length_app in H.
    pose proof (escapeHtml_length s).
    assert (1 <= List.length tail)%nat; [|lia].
    destruct Htail as [<-|[<-|[<-|[<-|[]]]]]; cbn; lia.
Qed.

Lemma escapeHtml_unchanged_iff_witness :
  escapeHtml (lit "Inicio") = lit "Inicio".
Proof.
  apply (proj2 (escapeHtml_unchanged_iff (lit "Inicio"))). reflexivity.
Defined.

End Escape_html.

(** * The stored forest *)

(** ** JSON without spaces: what is written is parsed back *)

Section Json_compact.
Local Open Scope N_scope.
Import JSON.

Lemma closed_stops rest :
  closed rest ->
  match rest with
  | [] => True
  | c :: _ => digit_of c = None
  end /\ continues_number rest = false.
Proof.
  destruct rest as [|c rest]; [split; [exact I|reflexivity]|].
  intros [->|[->| ->]]; split; reflexivity.
Qed.

Lemma parse_digits_digits_closed u rest :
  closed rest -> parse_digits (digits u ++ rest) = (u, rest).
Proof.
  intros Hrest. destruct (closed_stops rest Hrest) as [Hstop _].
  induction u; cbn [digits app parse_digits];
    try (cbn [digit_of N.eqb Pos.eqb]; rewrite IHu; reflexivity).
  destruct rest as [|c rest]; [reflexivity|].
  cbn [parse_digits]. rewrite Hstop. reflexivity.
Qed.

Lemma parse_number_digits_closed (negative : bool) u rest :
  closed rest ->
  u <> Decimal.Nil ->
  (forall u', u = Decimal.D0 u' -> u' = Decimal.Nil) ->
  parse_number ((if negative then [45] else []) ++ digits u ++ rest) =
  Some (JNumber (Z.of_int (if negative then Decimal.Neg u
                           else Decimal.Pos u)), rest).
Proof.
  intros Hrest Hnil Hlead. unfold parse_number.
  assert (Hsign :
            match (if negative then [45] else []) ++ digits u ++ rest with
            | c :: text => if c =? 45 then (true, text)
                           else (false, c :: text)
            | [] => (false, [])
            end = (negative, digits u ++ rest)).
  { destruct negative; [reflexivity|].
    destruct (digits_first_digit u rest Hnil) as (c & text & Htext & Hc).
    cbn [app]. rewrite Htext.
    destruct (N.eqb_spec c 45); [lia|reflexivity]. }
  match goal with
  | |- (let (_, _) := ?m in _) = _ => replace m with (negative, digits u ++ rest)
  end.
  2:{ rewrite <- Hsign.
      destruct ((if negative then [45] else []) ++ digits u ++ rest);
        reflexivity. }
  rewrite (parse_digits_digits_closed u rest Hrest).
  rewrite (proj2 (closed_stops rest Hrest)).
  destruct u as [|u|u|u|u|u|u|u|u|u|u]; try reflexivity; [contradiction|].
  rewrite (Hlead u eq_refl). reflexivity.
Qed.

Lemma parse_number_to_string_closed z rest :
  closed rest ->
  parse_number (number_to_string z ++ rest) = Some (JNumber z, rest).
Proof.
  intros Hrest. unfold number_to_string.
  pose proof (DecimalZ.of_to z) as Hz.
  destruct z as [|p|p]; cbn [Z.to_int] in *.
  - apply (parse_number_digits_closed false Decimal.zero rest Hrest);
      [discriminate|]. intros u' [= <-]. reflexivity.
  - etransitivity;
      [apply (parse_number_digits_closed false (Pos.to_uint p) rest Hrest)|].
    + apply DecimalPos.Unsigned.to_uint_nonnil.
    + intros u' E. exfalso. apply (to_uint_no_leading_zero p u' E).
    + rewrite Hz. reflexivity.
  - etransitivity;
      [apply (parse_number_digits_closed true (Pos.to_uint p) rest Hrest)|].
    + apply DecimalPos.Unsigned.to_uint_nonnil.
    + intros u' E. exfalso. apply (to_uint_no_leading_zero p u' E).
    + rewrite Hz. reflexivity.
Qed.

Lemma serialize_compact_head v rest :
  exists c text, serialize_compact v ++ rest = c :: text /\ opener c.
Proof.
  destruct v as [|[|]|z|s|[|x l]|[|kv m]]; cbn [serialize_compact];
    cbn [app lit List.map list_ascii_of_string];
    try (eexists; eexists; split; [reflexivity|]; unfold opener; cbn; lia).
  destruct (number_head z rest) as (c & text & E & Hc).
  exists c, text. split; [exact E|]. unfold opener. lia.
Qed.

Lemma round_trips_compact_number z : round_trips_compact (JNumber z).
Proof.
  intros fuel rest Hfuel Hrest.
  destruct fuel as [|fuel]; [simpl in Hfuel; lia|].
  cbn [serialize_compact].
  destruct (number_head z rest) as (c & text & Htext & Hc).
  rewrite Htext. cbn [parse_value].
  rewrite skip_ws_head
    by (apply opener_not_space; unfold opener; lia).
  destruct (N.eqb_spec c 123); [lia|]. destruct (N.eqb_spec c 91); [lia|].
  destruct (N.eqb_spec c 34); [lia|]. destruct (N.eqb_spec c 116); [lia|].
  destruct (N.eqb_spec c 102); [lia|]. destruct (N.eqb_spec c 110); [lia|].
  rewrite <- Htext. apply parse_number_to_string_closed. exact Hrest.
Qed.

Lemma round_trips_compact_string s : round_trips_compact (JString s).
Proof.
  intros fuel rest Hfuel _.
  destruct fuel as [|fuel]; [simpl in Hfuel; lia|].
  cbn [serialize_compact]. unfold quote. cbn [app parse_value skip_ws].
  cbn [is_json_space N.eqb Pos.eqb orb].
  rewrite <- app_assoc. cbn [app]. rewrite parse_quote_body. reflexivity.
Qed.

Lemma parse_elements_compact l :
  Forall round_trips_compact l -> l <> [] ->
  forall (fuel : nat) (rest : jsstring),
    (list_sum (List.map (fun x => S (size x)) l) <= fuel)%nat ->
    parse_elements fuel
      (join [44] (List.map serialize_compact l) ++ 93 :: rest)
    = Some (l, rest).
Proof.
  induction l as [|x l IH]; intros HP Hne fuel rest Hfuel; [contradiction|].
  inversion HP as [|? ? Px Pl]; subst.
  destruct fuel as [|fuel]; [simpl in Hfuel; lia|].
  simpl in Hfuel. cbn [parse_elements]. unfold round_trips_compact in Px.
  destruct l as [|y l].
  - cbn [List.map join].
    rewrite Px; [|lia|right; left; reflexivity].
    reflexivity.
  - cbn [List.map]. rewrite join_cons. rewrite <- !app_assoc. cbn [app].
    rewrite Px; [|lia|left; reflexivity].
    cbv beta iota. rewrite skip_ws_head by reflexivity.
    cbn [N.eqb Pos.eqb].
    specialize (IH Pl ltac:(discriminate) fuel rest).
    cbn [List.map] in IH.
    rewrite IH; [reflexivity|]. simpl. simpl in Hfuel. lia.
Qed.

Lemma parse_members_compact m :
  Forall (fun kv => round_trips_compact (snd kv)) m -> m <> [] ->
  forall (fuel : nat) (rest : jsstring),
    (list_sum (List.map (fun kv => S (size (snd kv))) m) <= fuel)%nat ->
    parse_members fuel
      (join [44] (List.map member_compact m) ++ 125 :: rest)
    = Some (m, rest).
Proof.
  induction m as [|[k v] m IH]; intros HP Hne fuel rest Hfuel;
    [contradiction|].
  inversion HP as [|? ? Pv Pm]; subst. cbn [snd] in Pv.
  destruct fuel as [|fuel]; [simpl in Hfuel; lia|].
  simpl in Hfuel. unfold round_trips_compact in Pv.
  assert (Hmember :
            forall R, closed R ->
              parse_members (S fuel) (member_compact (k, v) ++ R) =
              match skip_ws R with
              | [] => None
              | c :: r4 =>
                  if c =? 44 then
                    match parse_members fuel r4 with
                    | Some (ms, r5) => Some ((k, v) :: ms, r5)
                    | None => None
                    end
                  else if c =? 125 then Some ([(k, v)], r4)
                  else None
              end).
  { intros R HR. unfold member_compact, quote. cbn [fst snd].
    rewrite <- !app_assoc. cbn [app parse_members].
    rewrite skip_ws_head by reflexivity. cbn [N.eqb Pos.eqb].
    rewrite <- !app_assoc. cbn [app].
    rewrite parse_quote_body. cbv beta iota.
    rewrite skip_ws_head by reflexivity. cbn [N.eqb Pos.eqb].
    rewrite Pv; [reflexivity|lia|exact HR]. }
  destruct m as [|kv m].
  - cbn [List.map join].
    rewrite Hmember by (right; right; reflexivity).
    reflexivity.
  - cbn [List.map]. rewrite join_cons. rewrite <- !app_assoc.
    rewrite Hmember by (left; reflexivity).
    cbn [app]. rewrite skip_ws_head by reflexivity.
    cbn [N.eqb Pos.eqb].
    specialize (IH Pm ltac:(discriminate) fuel rest).
    cbn [List.map] in IH.
    rewrite IH; [reflexivity|]. simpl. simpl in Hfuel. lia.
Qed.

Lemma round_trips_compact_all v : distinct_keys v -> round_trips_compact v.
Proof.
  induction v as [| b | z | s | l IHl | m IHm] using value_induction;
    intros Hdk.
  - intros fuel rest Hfuel _.
    destruct fuel as [|fuel]; [simpl in Hfuel; lia|]. reflexivity.
  - intros fuel rest Hfuel _.
    destruct fuel as [|fuel]; [simpl in Hfuel; lia|].
    destruct b; reflexivity.
  - apply round_trips_compact_number.
  - apply round_trips_compact_string.
  - assert (Hl : Forall round_trips_compact l).
    { inversion Hdk as [| | | |l' Hall|]; subst.
      rewrite Forall_forall in *. intros x Hx. apply IHl; [exact Hx|].
      apply Hall. exact Hx. }
    clear IHl Hdk.
    intros fuel rest Hfuel _.
    destruct fuel as [|fuel]; [simpl in Hfuel; lia|].
    destruct l as [|x l]; [reflexivity|].
    cbn [serialize_compact]. rewrite <- !app_assoc. cbn [app].
    cbn [parse_value]. rewrite skip_ws_head by reflexivity.
    cbn [N.eqb Pos.eqb].
    match goal with
    | |- context [parse_elements fuel ?R] => set (X := R)
    end.
    destruct (join_head (fun c => opener (hd 0 c)) [44]
                (serialize_compact x) (List.map serialize_compact l)
                (93 :: rest)) as (c & text & HX & Hc).
    { intros text. destruct (serialize_compact_head x text)
        as (c & t & E & Hc).
      exists c, t. split; assumption. }
    change (X = c :: text) in HX. cbn [hd] in Hc.
    rewrite HX at 1. rewrite skip_ws_head by (apply opener_not_space; exact Hc).
    destruct (N.eqb_spec c 93) as [E|_]; [unfold opener in Hc; lia|].
    unfold X.
    pose proof (parse_elements_compact (x :: l) Hl ltac:(discriminate)
                  fuel rest) as Hparse.
    match goal with
    | |- match ?t with _ => _ end = _ =>
        replace t with (Some (x :: l, rest)); [reflexivity|]
    end.
    symmetry. apply Hparse. simpl in Hfuel. simpl. lia.
  - assert (Hm : Forall (fun kv => round_trips_compact (snd kv)) m
                 /\ NoDup (List.map fst m)).
    { inversion Hdk as [| | | | |m' Hnd Hall]; subst. split; [|exact Hnd].
      rewrite Forall_forall in *. intros x Hx. apply IHm; [exact Hx|].
      apply Hall. exact Hx. }
    destruct Hm as [Hm Hnd]. clear IHm Hdk.
    intros fuel rest Hfuel _.
    destruct fuel as [|fuel]; [simpl in Hfuel; lia|].
    destruct m as [|kv m]; [reflexivity|].
    cbn [serialize_compact].
    change (fun kv0 : list N * value =>
              quote (fst kv0) ++ [58] ++ serialize_compact (snd kv0))
      with member_compact.
    rewrite <- !app_assoc. cbn [app].
    cbn [parse_value]. rewrite skip_ws_head by reflexivity.
    cbn [N.eqb Pos.eqb].
    match goal with
    | |- context [parse_members fuel ?R] => set (X := R)
    end.
    destruct (join_head (fun c => hd 0 c = 34) [44]
                (member_compact kv) (List.map member_compact m)
                (125 :: rest)) as (c & text & HX & Hc).
    { intros text. eexists; eexists. split; reflexivity. }
    change (X = c :: text) in HX. cbn [hd] in Hc. subst c.
    rewrite HX at 1. rewrite skip_ws_head by reflexivity.
    cbn [N.eqb Pos.eqb].
    unfold X.
    pose proof (parse_members_compact (kv :: m) Hm ltac:(discriminate)
                  fuel rest) as Hparse.
    match goal with
    | |- match ?t with _ => _ end = _ =>
        replace t with (Some (kv :: m, rest))
    end.
    + rewrite (make_object_distinct (kv :: m) Hnd). reflexivity.
    + symmetry. apply Hparse. simpl in Hfuel. simpl. lia.
Qed.

End Json_compact.

Section Json_compact_size.
Import JSON.

Lemma size_le_length_compact v :
  (size v <= List.length (serialize_compact v))%nat.
Proof.
  induction v as [| b | z | s | l IHl | m IHm] using value_induction.
  - simpl. lia.
  - destruct b; simpl; lia.
  - cbn [serialize_compact size].
    destruct (number_head z []) as (c & text & E & _).
    rewrite List.app_nil_r in E. rewrite E. simpl. lia.
  - cbn [serialize_compact size]. unfold quote. simpl. lia.
  - destruct l as [|x l]; [simpl; lia|].
    cbn [serialize_compact size].
    pose proof (join_length_sum value size serialize_compact [44%N]
                  (x :: l) ltac:(simpl; lia) IHl) as Hsum.
    rewrite !length_app. cbn [app List.length]. lia.
  - destruct m as [|kv m]; [simpl; lia|].
    cbn [serialize_compact size].
    change (fun kv0 : list N * value =>
              quote (fst kv0) ++ [58%N] ++ serialize_compact (snd kv0))
      with member_compact.
    assert (Hall : Forall (fun a => (size (snd a)
                                     <= List.length (member_compact a))%nat)
                     (kv :: m)).
    { rewrite Forall_forall in *. intros a Ha. unfold member_compact.
      rewrite !length_app. specialize (IHm a Ha). lia. }
    pose proof (join_length_sum (list N * value) (fun kv => size (snd kv))
                  member_compact [44%N] (kv :: m) ltac:(simpl; lia) Hall)
      as Hsum.
    rewrite !length_app. cbn [app List.length]. lia.
Qed.

Lemma parse_serialize_compact v :
  distinct_keys v -> JSON.parse (serialize_compact v) = Some v.
Proof.
  intros Hdk. unfold parse.
  pose proof (round_trips_compact_all v Hdk
                (S (List.length (serialize_compact v))) []) as H.
  rewrite List.app_nil_r in H. rewrite H; [reflexivity| |exact I].
  pose proof (size_le_length_compact v). lia.
Qed.

(** X13: a value without repeated keys, written by [JSON.stringify] with
    one argument, is parsed back by [JSON.parse] to the same value. *)
Theorem parse_compact_round_trip :
  forall v : JSON.value,
    distinct_keys v -> JSON.parse (serialize_compact v) = Some v.
Proof. exact parse_serialize_compact. Qed.

Lemma parse_compact_round_trip_witness :
  JSON.parse (lit "[-3,true,null]") =
  Some (JArray [JNumber (-3); JBool true; JNull]).
Proof.
  apply (parse_compact_round_trip (JArray [JNumber (-3); JBool true; JNull])).
  repeat constructor.
Defined.

End Json_compact_size.

(** ** cargarMenu *)


Lemma as_entry_eq members :
  as_entry (JSON.JObject members) =
  if forallb (fun kv => existsb (JSON.jsstring_eqb (fst kv)) entry_keys)
       members
  then
    match number_member (lit "id") members,
          string_member (lit "nombre") members,
          string_member (lit "enlace") members,
          optional_string_member (lit "icon") members,
          submenu_member members with
    | Some i, Some n, Some e, Some ic, Some sub =>
        Some (mkEntry i n e ic sub)
    | _, _, _, _, _ => None
    end
  else None.
Proof. reflexivity. Qed.


Lemma jsstring_eqb_eq a b : JSON.jsstring_eqb a b = true <-> a = b.
Proof.
  unfold JSON.jsstring_eqb.
  destruct (list_eq_dec N.eq_dec a b); split; intros H;
    [assumption|reflexivity|discriminate|contradiction].
Qed.

(** The members of an object may come in any order: what [as_entry] reads
    does not change. *)
Lemma member_any_order key ms ms' :
  Permutation ms ms' -> NoDup (List.map fst ms) ->
  member key ms' = member key ms.
Proof.
  unfold member. intros Hp. induction Hp as [|x l l' Hp IH|x y l|l l' l'' Hp1 IH1 Hp2 IH2];
    intros Hnd.
  - reflexivity.
  - cbn [find]. destruct (JSON.jsstring_eqb (fst x) key); [reflexivity|].
    apply IH. cbn in Hnd. inversion Hnd; assumption.
  - cbn [find].
    destruct (JSON.jsstring_eqb (fst x) key) eqn:Ex;
      destruct (JSON.jsstring_eqb (fst y) key) eqn:Ey; try reflexivity.
    apply jsstring_eqb_eq in Ex. apply jsstring_eqb_eq in Ey.
    cbn in Hnd. inversion Hnd as [|? ? Hy _]; subst.
    exfalso. apply Hy. left. congruence.
  - rewrite IH2, IH1; [reflexivity|exact Hnd|].
    apply (Permutation_NoDup (Permutation_map fst Hp1) Hnd).
Qed.

Lemma submenu_member_eq ms :
  submenu_member ms =
  match member (lit "submenu") ms with
  | None => Some None
  | Some (JSON.JArray l) => option_map Some (as_entries l)
  | Some _ => None
  end.
Proof.
  unfold member. induction ms as [|[k x] ms IH]; [reflexivity|].
  cbn [submenu_member find fst snd].
  destruct (JSON.jsstring_eqb k (lit "submenu")); [reflexivity|exact IH].
Qed.

Lemma forallb_any_order (A : Type) (f : A -> bool) l l' :
  Permutation l l' -> forallb f l' = forallb f l.
Proof.
  intros Hp. induction Hp as [|x l l' Hp IH|x y l|l l' l'' Hp1 IH1 Hp2 IH2];
    cbn [forallb].
  - reflexivity.
  - rewrite IH. reflexivity.
  - destruct (f x), (f y); reflexivity.
  - rewrite IH2, IH1. reflexivity.
Qed.

Lemma as_entry_any_order members members' :
  Permutation members members' -> NoDup (List.map fst members) ->
  as_entry (JSON.JObject members') = as_entry (JSON.JObject members).
Proof.
  intros Hp Hnd. rewrite !as_entry_eq, !submenu_member_eq.
  unfold number_member, string_member, optional_string_member.
  rewrite (forallb_any_order _ _ _ _ Hp).
  rewrite !(member_any_order _ _ _ Hp Hnd). reflexivity.
Qed.





Lemma cargarMenu_unavailable writable storage net menuData :
  storage = None \/ storage = Some [] ->
  net = FetchRejected
  \/ (exists body, net = FetchResponse false body)
  \/ (exists body, net = FetchResponse true body
                   /\ JSON.parse body = Some JSON.JNull) ->
  cargarMenu writable storage net menuData =
  Some (mkLoaded menuData storage [LoadError]).
Proof.
  intros Hst Hnet.
  assert (Hseed : load_seed writable storage net menuData =
                  Some (mkLoaded menuData storage [LoadError])).
  { destruct Hnet as [->|[[body ->]|[body [-> Hbody]]]]; try reflexivity.
    unfold load_seed. cbn [negb]. rewrite Hbody. reflexivity. }
  destruct Hst as [->| ->]; exact Hseed.
Qed.

(** X15: with nothing stored, when the request for the seed is rejected,
    or answers with a status that is not ok, or with the body [null], the
    forest and the storage stay as they were, nothing is rendered and the
    error message is shown. *)
Theorem cargarMenu_seed_unavailable :
  forall (writable : bool) (storage : option jsstring) (net : fetched)
         (menuData : Forest),
    storage = None \/ storage = Some [] ->
    net = FetchRejected
    \/ (exists body, net = FetchResponse false body)
    \/ (exists body, net = FetchResponse true body
                     /\ JSON.parse body = Some JSON.JNull) ->
    cargarMenu writable storage net menuData =
    Some (mkLoaded menuData storage [LoadError]).
Proof.
  intros writable storage net menuData.
  apply cargarMenu_unavailable.
Qed.

Lemma cargarMenu_seed_unavailable_witness :
  cargarMenu true None (FetchResponse true (lit "null")) [] =
  Some (mkLoaded [] None [LoadError]).
Proof.
  apply (cargarMenu_seed_unavailable true None
           (FetchResponse true (lit "null")) []).
  - left. reflexivity.
  - right. right. exists (lit "null"). split; reflexivity.
Defined.







(** X18: a seed that has no [menu], or a [menu] that is [null], [false],
    0 or the empty string, gives the empty forest, which is stored as
    [[]]. *)
Theorem cargarMenu_seed_without_menu :
  forall (body : jsstring) (data : JSON.value) (menuData0 : Forest),
    JSON.parse body = Some data ->
    data <> JSON.JNull ->
    (property (lit "menu") data = None
     \/ exists menu, property (lit "menu") data = Some menu
                     /\ falsy menu = true) ->
    cargarMenu true None (FetchResponse true body) menuData0 =
    Some (mkLoaded [] (Some (lit "[]"))
            [LoadSave (lit "[]"); LoadRender []; LoadJsonView []]).
Proof.
  intros body data menuData0 Hparse Hnull Hmenu.
  unfold cargarMenu, load_seed. cbn [negb]. rewrite Hparse.
  assert (Hseed : seed_menu data = Some (JSON.JArray [])).
  { destruct data as [| b | z | s | l | m]; [contradiction| | | | |];
      unfold seed_menu;
      (destruct Hmenu as [->|(menu & -> & ->)]; reflexivity). }
  rewrite Hseed. reflexivity.
Qed.

Lemma cargarMenu_seed_without_menu_witness :
  cargarMenu true None (FetchResponse true (lit "{}")) [] =
  Some (mkLoaded [] (Some (lit "[]"))
          [LoadSave (lit "[]"); LoadRender []; LoadJsonView []]).
Proof.
  apply (cargarMenu_seed_without_menu (lit "{}") (JSON.JObject []) []).
  - reflexivity.
  - discriminate.
  - left. reflexivity.
Defined.

(** * Opening an entry for editing *)

Section StartEdit_properties.
Variables nombreValue enlaceValue iconoValue : jsstring -> jsstring.

(** X19: saving an entry right after opening it for editing.  For an id
    other than 0 whose entry has a label and an href that pass the
    validations and fields that the form gives back as they are, the entry
    keeps its id, label, href and submenu and has an icon afterwards, the
    empty one if it had none; and when it had an icon, the forest is the
    one it was. *)
Theorem startEdit_then_submit :
  forall (target : Z) (p : Page) (form : Form) (item : MenuEntry),
    target <> 0 ->
    findById target (menuData p) = Some item ->
    trim (nombreValue (nombre item)) = nombre item ->
    trim (enlaceValue (enlace item)) = enlace item ->
    trim (iconoValue (shown_icon item)) = shown_icon item ->
    nombre item <> [] ->
    validateUrl (enlace item) = true ->
    let form' :=
      fst (startEdit nombreValue enlaceValue iconoValue target (menuData p)
             form) in
    let p' := submit form' p in
    findById target (menuData p') =
    Some (mkEntry (id item) (nombre item) (enlace item)
            (Some (shown_icon item)) (submenu item))
    /\ (icon item <> None -> menuData p' = menuData p).
Proof.
  intros target p form item Hz Hfind Hn He Hi Hnn Hurl form' p'.
  pose proof (proj1 (search_found target (menuData p) item Hfind)) as Hid.
  assert (Hform : form' =
                  mkForm (Some target) (nombreValue (nombre item))
                    (enlaceValue (enlace item))
                    (iconoValue (shown_icon item)) None).
  { subst form'. unfold startEdit. rewrite Hfind. cbn [fst].
    rewrite !or_empty_id, Hid. unfold shown_icon.
    destruct (icon item); rewrite ?or_empty_id; reflexivity. }
  assert (Hacc : accepted form').
  { rewrite Hform. unfold accepted. cbn [nombreInput enlaceInput].
    rewrite Hn, He. split; assumption. }
  assert (Hp' : p' = _)
    by apply (submit_edit form' p target Hacc
                ltac:(rewrite Hform; reflexivity) Hz).
  cbv zeta in Hp'. rewrite Hfind in Hp'.
  rewrite Hform in Hp'. cbn [nombreInput enlaceInput iconoInput] in Hp'.
  rewrite Hn, He, Hi in Hp'. rewrite Hp'.
  cbn [menuData resetForm renderMenu saveToLocalStorage showMessage].
  split.
  - unfold findById.
    rewrite (search_assign target
               (set_fields (nombre item) (enlace item) (shown_icon item))
               (menuData p) item (fun _ => eq_refl) Hfind).
    unfold set_fields. rewrite or_empty_id. reflexivity.
  - intros Hicon.
    apply (assign_fixed target _ (menuData p) item Hfind).
    unfold set_fields, shown_icon. rewrite or_empty_id.
    destruct item as [i n e [ic|] s]; [reflexivity|contradiction].
Qed.

End StartEdit_properties.

Lemma startEdit_then_submit_witness :
  let home := mkEntry 1 (lit "Home") (lit "/a") (Some (lit "*")) None in
  let form := mkForm None [] [] [] None in
  menuData
    (submit (fst (startEdit (fun s => s) (fun s => s) (fun s => s) 1 [home]
                    form))
       (mkPage [home] [])) = [home].
Proof.
  refine (proj2 (startEdit_then_submit (fun s => s) (fun s => s) (fun s => s)
            1 (mkPage [mkEntry 1 (lit "Home") (lit "/a") (Some (lit "*"))
                         None] [])
            (mkForm None [] [] [] None)
            (mkEntry 1 (lit "Home") (lit "/a") (Some (lit "*")) None)
            _ eq_refl eq_refl eq_refl eq_refl _ eq_refl) _);
    discriminate.
Defined.

(** X20: for an entry with id 0, saving right after opening it for editing
    does not update it: when the form passes the validations, a new entry
    with the fields of the form is appended to the root array, and the
    entry with id 0 stays as it was. *)
Theorem startEdit_zero_then_submit :
  forall (nombreValue enlaceValue iconoValue : jsstring -> jsstring)
         (p : Page) (form : Form) (item : MenuEntry),
    findById 0 (menuData p) = Some item ->
    let form' :=
      fst (startEdit nombreValue enlaceValue iconoValue 0 (menuData p)
             form) in
    accepted form' ->
    menuData (submit form' p) =
    menuData p ++ [created form' (menuData p)].
Proof.
  intros nV eV iV p form item Hfind form' Hacc.
  pose proof (proj1 (search_found 0 (menuData p) item Hfind)) as Hid.
  assert (Hed : editingIdInput form' = Some 0
                /\ parentIdInput form' = None).
  { subst form'. unfold startEdit. rewrite Hfind. cbn. rewrite Hid.
    split; reflexivity. }
  destruct Hed as [Hed Hpar].
  rewrite (submit_create form' p Hacc ltac:(rewrite Hed; reflexivity)).
  cbv zeta. rewrite Hpar. reflexivity.
Qed.

Lemma startEdit_zero_then_submit_witness :
  let zero := mkEntry 0 (lit "Home") (lit "/a") None None in
  menuData
    (submit (fst (startEdit (fun s => s) (fun s => s) (fun s => s) 0 [zero]
                    (mkForm None [] [] [] None)))
       (mkPage [zero] [])) =
  [zero; mkEntry 1 (lit "Home") (lit "/a") (Some []) None].
Proof.
  refine (startEdit_zero_then_submit (fun s => s) (fun s => s) (fun s => s)
            (mkPage [mkEntry 0 (lit "Home") (lit "/a") None None] [])
            (mkForm None [] [] [] None)
            (mkEntry 0 (lit "Home") (lit "/a") None None) eq_refl _).
  split; [discriminate|reflexivity].
Defined.

(** * The menu button and the reset button *)

(** X21: the button and the menu stay in step.  When the attribute
    [aria-expanded] says ["true"] exactly when the menu is active (a button
    without the attribute says it is not expanded), it still does after a
    click.  Two clicks bring the menu back and leave the attribute saying
    what it said; the attribute itself comes back when it was written
    ["true"] or ["false"]. *)
Theorem toggleClick_keeps_in_step :
  forall t : Toggle,
    (in_step t -> in_step (toggleClick t))
    /\ active (toggleClick (toggleClick t)) = active t
    /\ expanded (toggleClick (toggleClick t)) = expanded t
    /\ (ariaExpanded t = Some (lit "true")
        \/ ariaExpanded t = Some (lit "false") ->
        toggleClick (toggleClick t) = t).
Proof.
  intros [aria act]. unfold in_step, toggleClick.
  cbn [ariaExpanded active].
  set (b := expanded (mkToggle aria act)).
  assert (Hflip : expanded
                    (mkToggle
                       (Some (if negb b then lit "true" else lit "false"))
                       (negb act)) = negb b).
  { destruct b; reflexivity. }
  split; [|split; [|split]].
  - intros H. rewrite Hflip, H. reflexivity.
  - apply negb_involutive.
  - rewrite Hflip.
    change (expanded
              (mkToggle
                 (Some (if negb (negb b) then lit "true" else lit "false"))
                 (negb (negb act))) = b).
    destruct b; reflexivity.
  - rewrite Hflip, !negb_involutive. subst b.
    intros [->| ->]; reflexivity.
Qed.

Lemma toggleClick_keeps_in_step_witness :
  in_step (toggleClick (mkToggle None false)).
Proof.
  apply (proj1 (toggleClick_keeps_in_step (mkToggle None false))).
  reflexivity.
Defined.



(** * validateUrl looks at the beginning only *)

Lemma strip_prefix_ci_app p s t rest :
  strip_prefix_ci p s = Some rest ->
  strip_prefix_ci p (s ++ t) = Some (rest ++ t).
Proof.
  revert s. induction p as [|a p IH]; intros s H.
  - cbn in H. injection H as <-. reflexivity.
  - destruct s as [|d s]; [discriminate|]. cbn [strip_prefix_ci app] in *.
    destruct (N.eqb (canonicalize d) (canonicalize a)); [|discriminate].
    exact (IH s H).
Qed.

(** X23: whatever is appended to a link that [validateUrl] accepts, the
    result is accepted too: only the prefix and the character after it are
    looked at. *)
Theorem validateUrl_extends :
  forall s t : jsstring,
    validateUrl s = true -> validateUrl (s ++ t) = true.
Proof.
  intros s t. rewrite !validateUrl_eq. unfold prefix_then_char.
  rewrite !existsb_exists. intros (p & Hin & H). exists p.
  split; [exact Hin|].
  destruct (strip_prefix_ci p s) as [[|c rest]|] eqn:Hs; try discriminate.
  rewrite (strip_prefix_ci_app p s t (c :: rest) Hs). exact H.
Qed.

Lemma validateUrl_extends_witness :
  validateUrl (lit "/a" ++ lit " b") = true.
Proof.
  apply (validateUrl_extends (lit "/a") (lit " b")). reflexivity.
Defined.

(** * What the submit handler and its helpers do on the usual inputs *)

(** X24: [validateUrl] accepts exactly the strings that begin with "/",
    "http://" or "https://" (letters in either case) and go on with a
    character that is not a line terminator; so it accepts "/a", "http://x"
    and "https://x" and rejects the empty string, "ftp://x" and "x". *)
Theorem validateUrl_accepts_prefix_then_char :
  (forall url : jsstring,
      validateUrl url = true <->
      exists p c rest,
        In p prefixes /\ strip_prefix_ci p url = Some (c :: rest)
        /\ is_line_terminator c = false)
  /\ validateUrl (lit "/a") = true
  /\ validateUrl (lit "http://x") = true
  /\ validateUrl (lit "https://x") = true
  /\ validateUrl (lit "") = false
  /\ validateUrl (lit "ftp://x") = false
  /\ validateUrl (lit "x") = false.
Proof.
  split; [|repeat split].
  intros url. rewrite validateUrl_eq. unfold prefix_then_char.
  rewrite existsb_exists. split.
  - intros (p & Hin & H).
    destruct (strip_prefix_ci p url) as [[|c rest]|] eqn:Hs; try discriminate.
    exists p, c, rest. split; [exact Hin|]. split; [exact Hs|].
    destruct (is_line_terminator c); [discriminate|reflexivity].
  - intros (p & c & rest & Hin & Hs & Hc). exists p. split; [assumption|].
    rewrite Hs, Hc. reflexivity.
Qed.

Lemma validateUrl_accepts_prefix_then_char_witness :
  validateUrl (lit "HTTPS://x") = true.
Proof.
  apply (proj1 validateUrl_accepts_prefix_then_char (lit "HTTPS://x")).
  exists (lit "https://"), (N_of_ascii "x"), [].
  split; [right; right; left; reflexivity|]. split; reflexivity.
Defined.

(** X25: in a forest whose ids are below 2^53, [nextId] is one more than
    the largest of 0 and all the ids of the forest, those inside submenus
    at any depth included; on the empty forest it is 1. *)
Theorem nextId_is_max_plus_one :
  nextId [] = 1 /\
  forall F : Forest,
    below_2_53 F -> nextId F = maximum (all_ids F) + 1.
Proof. split; [reflexivity|exact nextId_exact]. Qed.

Lemma nextId_is_max_plus_one_witness :
  nextId [mkEntry 1 (lit "Home") (lit "/") None
            (Some [mkEntry 7 (lit "About") (lit "/about") None None]);
          mkEntry 3 (lit "Blog") (lit "/blog") None None] = 7 + 1.
Proof.
  apply (proj2 nextId_is_max_plus_one
           [mkEntry 1 (lit "Home") (lit "/") None
              (Some [mkEntry 7 (lit "About") (lit "/about") None None]);
            mkEntry 3 (lit "Blog") (lit "/blog") None None]).
  intros i [<-|[<-|[<-|[]]]]; reflexivity.
Defined.

(** X26: in a forest whose ids are below 2^53, the id that [nextId] gives
    is the id of no entry, at any depth: [findById] does not find it. *)
Theorem findById_nextId_not_found :
  forall F : Forest,
    below_2_53 F -> findById (nextId F) F = None.
Proof. exact findById_nextId_fresh. Qed.

Lemma findById_nextId_not_found_witness :
  findById 8
    [mkEntry 1 (lit "Home") (lit "/") None
       (Some [mkEntry 7 (lit "About") (lit "/about") None None])] = None.
Proof.
  apply (findById_nextId_not_found
           [mkEntry 1 (lit "Home") (lit "/") None
              (Some [mkEntry 7 (lit "About") (lit "/about") None None])]).
  intros i [<-|[<-|[]]]; reflexivity.
Defined.

(** X27: on the create path, with a parent id other than 0: if [findById]
    resolves it, the parent found afterwards has a submenu that is its
    former one (empty if it had none) followed by the new entry; if it does
    not resolve, the new entry is appended to the root array, and the
    warning is shown and replaced at once by the message of the added
    option, which is what the box holds when the handler returns. *)
Theorem submit_inserts_under_parent :
  forall (form : Form) (p : Page) (parentId : Z),
    accepted form ->
    truthy (editingIdInput form) = None ->
    parentIdInput form = Some parentId ->
    parentId <> 0 ->
    let F := menuData p in
    let e := created form F in
    let p' := submit form p in
    (forall parent,
        findById parentId F = Some parent ->
        exists parent',
          findById parentId (menuData p') = Some parent'
          /\ submenu parent' =
             Some (match submenu parent with
                   | Some l => l
                   | None => []
                   end ++ [e]))
    /\ (findById parentId F = None ->
        menuData p' = F ++ [e]
        /\ effects p' =
           effects p ++
           [ShowMessage MsgParentNoEncontrado false;
            ShowMessage MsgAnadida false; SaveToLocalStorage (F ++ [e]);
            RenderMenu (F ++ [e]); ResetForm]
        /\ messageBox (effects p') = Some (MsgAnadida, false)).
Proof.
  intros form p parentId Hacc Hed Hpar Hz F e p'.
  assert (Hp' : p' = _) by apply (submit_create form p Hacc Hed).
  cbv zeta in Hp'. rewrite Hpar in Hp'. cbn [truthy] in Hp'.
  destruct (Z.eqb_spec parentId 0) as [|_]; [contradiction|].
  fold F in Hp'. fold e in Hp'. split.
  - intros parent Hfind. rewrite Hfind in Hp'. rewrite Hp'.
    exists (push_submenu e parent). split; [|reflexivity].
    apply search_assign; [reflexivity|exact Hfind].
  - intros Hfind. rewrite Hfind in Hp'. rewrite Hp'. split; [reflexivity|].
    assert (He : effects
                   (resetForm (renderMenu (saveToLocalStorage
                      (showMessage MsgAnadida false
                         (mkPage (F ++ [e])
                            (effects p ++
                             [ShowMessage MsgParentNoEncontrado false]))))))
                 = effects p ++
                   [ShowMessage MsgParentNoEncontrado false;
                    ShowMessage MsgAnadida false;
                    SaveToLocalStorage (F ++ [e]);
                    RenderMenu (F ++ [e]); ResetForm]).
    { simpl. rewrite <- !app_assoc. reflexivity. }
    split; [exact He|]. rewrite He. unfold messageBox.
    rewrite fold_left_app. reflexivity.
Qed.

Lemma submit_inserts_under_parent_witness :
  let home := mkEntry 1 (lit "Home") (lit "/") None None in
  let form := mkForm None (lit "About") (lit "/about") (lit "") (Some 1) in
  exists parent',
    findById 1 (menuData (submit form (mkPage [home] []))) = Some parent'
    /\ submenu parent' = Some ([] ++ [created form [home]]).
Proof.
  refine (proj1 (submit_inserts_under_parent
            (mkForm None (lit "About") (lit "/about") (lit "") (Some 1))
            (mkPage [mkEntry 1 (lit "Home") (lit "/") None None] []) 1
            _ eq_refl eq_refl _) _ eq_refl).
  - split; [discriminate|reflexivity].
  - discriminate.
Defined.

(** X28: on the edit path, with an editing id other than 0: if
    [findById] resolves it, the entry found afterwards under that id has the
    label, href and icon of the form and the id and submenu it had, and the
    flattened forest differs in the view of that entry only; if it does not
    resolve, the handler shows the not-found error and the forest is the one
    it was. *)
Theorem submit_updates_only_fields :
  forall (form : Form) (p : Page) (editingId : Z),
    accepted form ->
    editingIdInput form = Some editingId ->
    editingId <> 0 ->
    let F := menuData p in
    let p' := submit form p in
    (forall item,
        findById editingId F = Some item ->
        let item' :=
          mkEntry (id item) (trim (nombreInput form))
            (trim (enlaceInput form)) (Some (trim (iconoInput form)))
            (submenu item) in
        findById editingId (menuData p') = Some item'
        /\ exists pre post path,
             views [] F = pre ++ view_of path item :: post
             /\ views [] (menuData p') = pre ++ view_of path item' :: post)
    /\ (findById editingId F = None ->
        menuData p' = F
        /\ effects p' = effects p ++ [ShowMessage MsgEditarNoEncontrado true]).
Proof.
  intros form p editingId Hacc Hed Hz F p'.
  assert (Hp' : p' = _) by apply (submit_edit form p editingId Hacc Hed Hz).
  cbv zeta in Hp'. fold F in Hp'. split.
  - intros item Hfind item'. rewrite Hfind in Hp'. rewrite Hp'.
    set (f := set_fields (trim (nombreInput form)) (trim (enlaceInput form))
                (trim (iconoInput form))).
    assert (Hitem : f item = item').
    { unfold f, set_fields, item'. rewrite or_empty_id. reflexivity. }
    cbn [menuData resetForm renderMenu saveToLocalStorage showMessage].
    split.
    + rewrite <- Hitem. apply search_assign; [reflexivity|exact Hfind].
    + destruct (mutate_views editingId f F item
                  (fun _ => eq_refl) (fun _ => eq_refl) Hfind [])
        as (F' & pre & post & path & Hm & _ & Hv & Hv').
      exists pre, post, path. unfold assign. rewrite Hm, <- Hitem.
      split; assumption.
  - intros Hfind. rewrite Hfind in Hp'. rewrite Hp'. split; reflexivity.
Qed.

Lemma submit_updates_only_fields_witness :
  let home := mkEntry 1 (lit "Home") (lit "/") None None in
  let form := mkForm (Some 1) (lit "Start") (lit "/start") (lit "*") None in
  findById 1 (menuData (submit form (mkPage [home] []))) =
  Some (mkEntry 1 (lit "Start") (lit "/start") (Some (lit "*")) None).
Proof.
  refine (proj1 (proj1 (submit_updates_only_fields
            (mkForm (Some 1) (lit "Start") (lit "/start") (lit "*") None)
            (mkPage [mkEntry 1 (lit "Home") (lit "/") None None] []) 1
            _ eq_refl _) _ eq_refl)).
  - split; [discriminate|reflexivity].
  - discriminate.
Defined.

